(** * SmartGrade: the annotation and report rendering pipeline

    A shallow embedding of the grading front end:
    - [services/geminiService.ts]: [rotateImage], [gradeExamPages]
      (orientation reconciler, mark creation from the service's output);
    - [App.tsx]: [updateMark], [removeMark], [addMark] (interactive editor),
      the counters of the review bar and the file names of the report;
    - [components/GradingCanvas.tsx]: [handleImageClick],
      [handleMarkStatusToggle], [toggleNote];
    - [utils/pdfGenerator.ts]: [wrapText], [generateGradedPDF]
      (report compositor and document assembler).

    JavaScript numbers are IEEE 754 binary64 values.  They are modelled as
    the rationals they denote; every arithmetic operation rounds its exact
    result to the nearest binary64 value, ties to even ([Double.round]).
    Strings are sequences of UTF-16 code units.  The browser (image
    decoding, canvas, text metrics), the grading service, the clock and
    [Math.random] are inputs of the model. *)

From Stdlib Require Import ZArith QArith Qround Qabs Qreduction Lia Lqa.
From Stdlib Require Import String Ascii List Bool Sorted Permutation DecimalZ.
Import ListNotations.

(* ===================================================================== *)
(** * JavaScript numbers *)
(* ===================================================================== *)

Module Double.

Local Open Scope Q_scope.

(** A finite binary64 value, as the rational it denotes.  Infinities and
    NaN are not represented: coordinates are percentages and sizes are
    pixel counts, far from the overflow threshold 2^1024. *)
Definition number := Q.

(** Every finite binary64 value is an integer multiple of 2^-1074. *)
Definition emin : Z := 1074.
Definition scale : Z := 2 ^ emin.

(** Nearest integer, ties to even. *)
Definition rne (q : Q) : Z :=
  let f := Qfloor q in
  match Qcompare (q - inject_Z f) (1 # 2) with
  | Lt => f
  | Gt => (f + 1)%Z
  | Eq => if Z.even f then f else (f + 1)%Z
  end.

(** Exponent of the unit in the last place of [q], counted in units of
    2^-1074: 53 significant bits, gradual underflow at the bottom. *)
Definition ulp_exp (q : Q) : Z :=
  Z.max (Z.log2 (Qfloor (Qabs q * inject_Z scale)) - 52) 0.

(** Rounding to nearest binary64, ties to even. *)
Definition round (q : Q) : Q :=
  let u := (2 ^ ulp_exp q)%Z in
  Qred (inject_Z (rne (q * inject_Z scale / inject_Z u) * u) / inject_Z scale).

(** The arithmetic operators [+], [-], [*], [/] and [Math.floor].  A
    division by zero, which gives an infinity or NaN in JavaScript, is
    outside the model ([a / 0] is 0 here): the source divides by the
    literals 100 and 2, and by the sides of the image rectangle in
    [handleImageClick], where the statements assume them non-zero. *)
Definition add (a b : number) : number := round (a + b).
Definition sub (a b : number) : number := round (a - b).
Definition mul (a b : number) : number := round (a * b).
Definition div (a b : number) : number := round (a / b).
Definition floor (a : number) : number := inject_Z (Qfloor a).

(** A decimal literal of the source denotes the nearest binary64 value. *)
Definition lit (q : Q) : number := round q.

(** The comparison [a > b]. *)
Definition gt (a b : number) : bool := negb (Qle_bool a b).

Definition is_double (q : Q) : bool := Qeq_bool (round q) q.

(** A rational is in the binary64 format when, counted in units of
    2^-1074, it is a significand of at most 53 bits times a power of
    two. *)
Definition format (q : Q) : Prop :=
  exists n e : Z,
    (0 <= e)%Z /\ (Z.abs n <= 2 ^ 53)%Z /\
    q * inject_Z scale == inject_Z (n * 2 ^ e).

(** The smallest positive value of the format. *)
Definition min_double : Q := 1 / inject_Z scale.

End Double.

Abbreviation number := Double.number.

(** Rounding is never unfolded by simplification: it computes with
    integers of more than a thousand bits. *)
Arguments Double.round : simpl never.
Arguments Double.add : simpl never.
Arguments Double.sub : simpl never.
Arguments Double.mul : simpl never.
Arguments Double.div : simpl never.
Arguments Double.lit : simpl never.

(* ===================================================================== *)
(** * JavaScript strings *)
(* ===================================================================== *)

Module JsString.

(** A string is a sequence of 16-bit code units; [text.split("")] yields
    exactly these units. *)
Definition code_unit := N.
Definition t := list code_unit.

(** Source literals are written in UTF-8; [js] gives the code units the
    engine holds for them. *)
Fixpoint utf8_decode (bs : list N) : list N :=
  match bs with
  | [] => []
  | b0 :: r0 =>
    if (b0 <? 128)%N then b0 :: utf8_decode r0
    else if (b0 <? 224)%N then
      match r0 with
      | b1 :: r1 => ((b0 - 192) * 64 + (b1 - 128))%N :: utf8_decode r1
      | _ => []
      end
    else if (b0 <? 240)%N then
      match r0 with
      | b1 :: b2 :: r2 =>
        ((b0 - 224) * 4096 + (b1 - 128) * 64 + (b2 - 128))%N :: utf8_decode r2
      | _ => []
      end
    else
      match r0 with
      | b1 :: b2 :: b3 :: r3 =>
        ((b0 - 240) * 262144 + (b1 - 128) * 4096 + (b2 - 128) * 64 + (b3 - 128))%N
          :: utf8_decode r3
      | _ => []
      end
  end.

Definition utf16_encode (cp : N) : list code_unit :=
  if (cp <? 65536)%N then [cp]
  else [(55296 + (cp - 65536) / 1024)%N; (56320 + (cp - 65536) mod 1024)%N].

Definition js (s : string) : t :=
  flat_map utf16_encode
    (utf8_decode (map N_of_ascii (list_ascii_of_string s))).

Fixpoint eqb (a b : t) : bool :=
  match a, b with
  | [], [] => true
  | c :: a', d :: b' => (c =? d)%N && eqb a' b'
  | _, _ => false
  end.

(** [o || d] for an optional string: [undefined] and the empty string are
    falsy. *)
Definition or_else (o : option t) (d : t) : t :=
  match o with
  | Some (c :: s) => c :: s
  | _ => d
  end.

Definition truthy (o : option t) : bool :=
  match o with
  | Some (_ :: _) => true
  | _ => false
  end.

(** Decimal digits of an integer, as a template literal prints it. *)
Fixpoint of_uint (d : Decimal.uint) : t :=
  match d with
  | Decimal.Nil => []
  | Decimal.D0 r => 48%N :: of_uint r
  | Decimal.D1 r => 49%N :: of_uint r
  | Decimal.D2 r => 50%N :: of_uint r
  | Decimal.D3 r => 51%N :: of_uint r
  | Decimal.D4 r => 52%N :: of_uint r
  | Decimal.D5 r => 53%N :: of_uint r
  | Decimal.D6 r => 54%N :: of_uint r
  | Decimal.D7 r => 55%N :: of_uint r
  | Decimal.D8 r => 56%N :: of_uint r
  | Decimal.D9 r => 57%N :: of_uint r
  end.

Definition of_int (z : Z) : t :=
  match Z.to_int z with
  | Decimal.Pos d => of_uint d
  | Decimal.Neg d => 45%N :: of_uint d
  end.

(** The code unit of the hyphen, the separator of generated ids. *)
Definition hyphen : code_unit := 45%N.

End JsString.

Abbreviation jsstring := JsString.t.
Abbreviation js := JsString.js.

(* ===================================================================== *)
(** * Data model ([types.ts]) *)
(* ===================================================================== *)

Inductive Status : Type := correct | incorrect.

Definition Status_eqb (a b : Status) : bool :=
  match a, b with
  | correct, correct | incorrect, incorrect => true
  | _, _ => false
  end.

Module Mark.
(** [interface GradingMark]. *)
Record t : Type := mk {
  id : jsstring;
  x : number;
  y : number;
  status : Status;
  pageIndex : nat;
  question : option jsstring;
  studentAnswer : option jsstring;
  correctAnswer : option jsstring;
  explanation : option jsstring
}.
End Mark.

Module Page.
(** [interface ExamPage]; [file] is the handle of the uploaded file. *)
Record t : Type := mk {
  id : jsstring;
  imageUrl : jsstring;
  file : nat;
  detectedLanguage : option jsstring
}.
End Page.

(** What a failing promise carries to the caller. *)
Inductive Error : Type :=
| ApiKeyError
| ServiceError (page : nat)
| ImageDecodeError (page : nat)
| ImageLoadError (page : nat).

Inductive Outcome (A : Type) : Type :=
| Resolved (a : A)
| Rejected (e : Error).
Arguments Resolved {A} a.
Arguments Rejected {A} e.

Definition bind {A B : Type} (m : Outcome A) (k : A -> Outcome B) : Outcome B :=
  match m with
  | Resolved a => k a
  | Rejected e => Rejected e
  end.

Notation "'await' x <- m ; k" := (bind m (fun x => k))
  (at level 10, x pattern, m at level 100, k at level 200).

(* ===================================================================== *)
(** * Orientation reconciler ([services/geminiService.ts]) *)
(* ===================================================================== *)

Module Raw.
(** One element of [result.marks], as parsed from the service's JSON. *)
Record t : Type := mk {
  x : number;
  y : number;
  status : Status;
  question : option jsstring;
  student_answer : option jsstring;
  correct_answer : option jsstring;
  explanation : option jsstring
}.

(** [{ ...m, x: nx, y: ny }]. *)
Definition with_xy (m : t) (nx ny : number) : t :=
  mk nx ny (status m) (question m) (student_answer m) (correct_answer m)
     (explanation m).
End Raw.

Module Reconciler.

(** The parsed response: every field may be absent. *)
Record ServiceResult : Type := {
  rotation_needed : option Z;
  detected_language : option jsstring;
  marks : option (list Raw.t)
}.

(** [response.text] is either empty or parses to a result. *)
Inductive Response : Type :=
| NoText
| Text (result : ServiceResult).

(** The collaborators of one call of [gradeExamPages]. *)
Record Env : Type := {
  (** Whether [VITE_GEMINI_API_KEY] holds a usable key. *)
  apiKeyConfigured : bool;
  (** Reading the file, [ai.models.generateContent] and [JSON.parse];
      [None] when one of them throws. *)
  generateContent : Page.t -> option Response;
  (** The canvas rotation of an image; [None] when the image fails to
      decode or no drawing context is available. *)
  canvasRotate : jsstring -> Z -> option jsstring;
  (** [Math.random().toString(36).substr(2, 9)] at the n-th draw of the
      call. *)
  randomSuffix : nat -> jsstring
}.

Definition rotateImage (env : Env) (imageUrl : jsstring) (angle : Z)
  : option jsstring :=
  if (angle =? 0)%Z then Some imageUrl else canvasRotate env imageUrl angle.

(** The callback of [pageMarks.map] under [if (rotation !== 0)]. *)
Definition transformMark (rotation : Z) (m : Raw.t) : Raw.t :=
  let nx := Raw.x m in
  let ny := Raw.y m in
  let '(nx, ny) :=
    if (rotation =? 90)%Z then (Double.sub 100 (Raw.y m), Raw.x m)
    else if (rotation =? 180)%Z then
      (Double.sub 100 (Raw.x m), Double.sub 100 (Raw.y m))
    else if (rotation =? 270)%Z then (Raw.y m, Double.sub 100 (Raw.x m))
    else (nx, ny) in
  Raw.with_xy m nx ny.

Definition zh : jsstring := js "zh".

(** The object pushed onto [allMarks] for one mark of page [i]. *)
Definition newMark (page : Page.t) (i : nat) (language suffix : jsstring)
  (m : Raw.t) : Mark.t :=
  let isZh := JsString.eqb language zh in
  {| Mark.id := js "mark-" ++ Page.id page ++ js "-" ++ suffix;
     Mark.x := Raw.x m;
     Mark.y := Raw.y m;
     Mark.status := Raw.status m;
     Mark.pageIndex := i;
     Mark.question :=
       Some (JsString.or_else (Raw.question m)
               (if isZh then js "题目" else js "Question"));
     Mark.studentAnswer :=
       Some (JsString.or_else (Raw.student_answer m)
               (if isZh then js "未知" else js "Unknown"));
     Mark.correctAnswer :=
       Some (JsString.or_else (Raw.correct_answer m) (js "-"));
     Mark.explanation :=
       Some (JsString.or_else (Raw.explanation m)
               (if isZh then js "无解析" else js "No explanation provided.")) |}.

(** The accumulators of the page loop, with the number of random draws
    made so far. *)
Record State : Type := {
  allMarks : list Mark.t;
  processedPages : list Page.t;
  draws : nat
}.

(** [pageMarks.forEach(m => allMarks.push(...))]. *)
Fixpoint pushMarks (env : Env) (page : Page.t) (i : nat) (language : jsstring)
  (pageMarks : list Raw.t) (acc : list Mark.t) (n : nat) : list Mark.t * nat :=
  match pageMarks with
  | [] => (acc, n)
  | m :: rest =>
    pushMarks env page i language rest
      (acc ++ [newMark page i language (randomSuffix env n) m]) (S n)
  end.

(** [processedPages[i] = p]. *)
Fixpoint setPage (i : nat) (p : Page.t) (pages : list Page.t) : list Page.t :=
  match pages, i with
  | [], _ => []
  | _ :: rest, O => p :: rest
  | q :: rest, S j => q :: setPage j p rest
  end.

Definition withLanguage (page : Page.t) (imageUrl language : jsstring) : Page.t :=
  Page.mk (Page.id page) imageUrl (Page.file page) (Some language).

(** The body of the page loop. *)
Definition gradePage (env : Env) (i : nat) (page : Page.t) (st : State)
  : Outcome State :=
  match generateContent env page with
  | None => Rejected (ServiceError i)
  | Some NoText => Resolved st
  | Some (Text result) =>
    let rotation := match rotation_needed result with Some r => r | None => 0%Z end in
    let language := JsString.or_else (detected_language result) (js "en") in
    let pageMarks := match marks result with Some l => l | None => [] end in
    await (pages, pageMarks) <-
      (if negb (rotation =? 0)%Z then
         match rotateImage env (Page.imageUrl page) rotation with
         | None => Rejected (ImageDecodeError i)
         | Some newImageUrl =>
           Resolved (setPage i (withLanguage page newImageUrl language)
                       (processedPages st),
                     map (transformMark rotation) pageMarks)
         end
       else
         Resolved (setPage i (withLanguage page (Page.imageUrl page) language)
                     (processedPages st),
                   pageMarks));
    let '(all, n) :=
      pushMarks env page i language pageMarks (allMarks st) (draws st) in
    Resolved {| allMarks := all; processedPages := pages; draws := n |}
  end.

Fixpoint gradeLoop (env : Env) (i : nat) (pages : list Page.t) (st : State)
  : Outcome State :=
  match pages with
  | [] => Resolved st
  | page :: rest =>
    await st' <- gradePage env i page st;
    gradeLoop env (S i) rest st'
  end.

(** [gradeExamPages]: the marks and the corrected pages. *)
Definition gradeExamPages (env : Env) (pages : list Page.t)
  : Outcome (list Mark.t * list Page.t) :=
  if negb (apiKeyConfigured env) then Rejected ApiKeyError
  else
    await st <- gradeLoop env 0 pages
      {| allMarks := []; processedPages := pages; draws := 0 |};
    Resolved (allMarks st, processedPages st).

End Reconciler.

(* ===================================================================== *)
(** * Interactive mark editor ([App.tsx]) *)
(* ===================================================================== *)

Module Editor.

(** [setMarks(prev => prev.map(m => m.id === updatedMark.id ? updatedMark : m))]. *)
Definition updateMark (updatedMark : Mark.t) (prev : list Mark.t) : list Mark.t :=
  map (fun m => if JsString.eqb (Mark.id m) (Mark.id updatedMark)
                then updatedMark else m) prev.

(** [setMarks(prev => prev.filter(m => m.id !== markId))]. *)
Definition removeMark (markId : jsstring) (prev : list Mark.t) : list Mark.t :=
  filter (fun m => negb (JsString.eqb (Mark.id m) markId)) prev.

(** [addMark]; [now] is the value of [Date.now()] at the call. *)
Definition addMark (now : Z) (x y : number) (pageIndex : nat)
  (prev : list Mark.t) : list Mark.t :=
  let newMark :=
    {| Mark.id := js "manual-" ++ JsString.of_int now;
       Mark.x := x;
       Mark.y := y;
       Mark.status := correct;
       Mark.pageIndex := pageIndex;
       Mark.question := None;
       Mark.studentAnswer := None;
       Mark.correctAnswer := None;
       Mark.explanation := None |} in
  prev ++ [newMark].

(** [marks.filter(m => m.pageIndex === activePageIndex)]. *)
Definition marksOfPage (pageIndex : nat) (marks : list Mark.t) : list Mark.t :=
  filter (fun m => Mark.pageIndex m =? pageIndex) marks.

(** What happens to the [marks] state during a session. *)
Inductive Event : Type :=
| FilesGraded (env : Reconciler.Env) (pages : list Page.t)
| MarkAdded (now : Z) (x y : number) (pageIndex : nat)
| MarkUpdated (updatedMark : Mark.t)
| MarkRemoved (markId : jsstring)
| SessionReset.

(** [handleFilesSelected] stores the service's marks when grading
    succeeds and leaves the state alone when it fails. *)
Definition step (marks : list Mark.t) (e : Event) : list Mark.t :=
  match e with
  | FilesGraded env pages =>
    match Reconciler.gradeExamPages env pages with
    | Resolved (aiMarks, _) => aiMarks
    | Rejected _ => marks
    end
  | MarkAdded now x y pageIndex => addMark now x y pageIndex marks
  | MarkUpdated updatedMark => updateMark updatedMark marks
  | MarkRemoved markId => removeMark markId marks
  | SessionReset => []
  end.

Definition run (events : list Event) : list Mark.t := fold_left step events [].

(** The clock readings of the interactive adds of a session. *)
Fixpoint clockReadings (events : list Event) : list Z :=
  match events with
  | [] => []
  | MarkAdded now _ _ _ :: rest => now :: clockReadings rest
  | _ :: rest => clockReadings rest
  end.

End Editor.

(* ===================================================================== *)
(** * [Array.prototype.sort] *)
(* ===================================================================== *)

Module JsArray.

(** The language's sort is stable (ECMAScript 2019) and orders by the
    sign of the comparator: [a] is moved behind [b] only when
    [compareFn(a, b) > 0].  For a consistent comparator every conforming
    engine returns the same array; it is embedded as the stable insertion
    sort. *)
Section Sort.
Context {A : Type}.
Variable compareFn : A -> A -> number.

Fixpoint insert (a : A) (sorted : list A) : list A :=
  match sorted with
  | [] => [a]
  | b :: rest =>
    if Double.gt (compareFn a b) 0 then b :: insert a rest
    else a :: b :: rest
  end.

Definition sort (l : list A) : list A := fold_right insert [] l.

End Sort.

End JsArray.

(* ===================================================================== *)
(** * Report compositor and document assembler ([utils/pdfGenerator.ts]) *)
(* ===================================================================== *)

Module Compositor.

(** The value of [ctx.font]: weight or style, and size in pixels. *)
Inductive Font : Type :=
| Bold (px : number)
| Regular (px : number)
| Italic (px : number).

(** One call of [ctx.fillText(text, x, y)]. *)
Record Line : Type := { text : jsstring; at_x : number; at_y : number }.

(** ** [wrapText] *)

Section WrapText.
(** [ctx.measureText(s).width] under the font in force. *)
Variable measure : jsstring -> number.

(** The [for] loop over [characters], from index [i] on; [drawn] collects
    the lines flushed so far. *)
Fixpoint wrapLoop (characters : jsstring) (i : nat) (x maxWidth lineHeight : number)
  (line : jsstring) (currentY : number) (drawn : list Line)
  : jsstring * number * list Line :=
  match characters with
  | [] => (line, currentY, drawn)
  | c :: rest =>
    let testLine := line ++ [c] in
    let testWidth := measure testLine in
    if Double.gt testWidth maxWidth && (0 <? i) then
      wrapLoop rest (S i) x maxWidth lineHeight [c]
        (Double.add currentY lineHeight)
        (drawn ++ [{| text := line; at_x := x; at_y := currentY |}])
    else
      wrapLoop rest (S i) x maxWidth lineHeight testLine currentY drawn
  end.

(** The lines flushed inside the loop, the last line, and the returned
    cursor. *)
Definition wrapText (text : jsstring) (x y maxWidth lineHeight : number)
  : list Line * number :=
  let '(line, currentY, drawn) :=
    wrapLoop text 0 x maxWidth lineHeight [] y [] in
  (drawn ++ [{| text := line; at_x := x; at_y := currentY |}],
   Double.add currentY lineHeight).

(** The lines flushed by a line break, that is inside the loop. *)
Definition breaks (text : jsstring) (x y maxWidth lineHeight : number)
  : list Line :=
  snd (wrapLoop text 0 x maxWidth lineHeight [] y []).

End WrapText.

(** ** [generateGradedPDF] *)

Record Env : Type := {
  (** Decoding [page.imageUrl]: the natural width and height, or [None]
      when [img.onerror] fires. *)
  loadImage : jsstring -> option (Z * Z);
  (** Whether [canvas.getContext("2d")] yields a context for the canvas
      of page [i]. *)
  getContext : nat -> bool;
  measureText : Font -> jsstring -> number
}.

Inductive Command : Type :=
| DrawImage (imageUrl : jsstring)
| FillRect (x y w h : number)
| Divider (x h : number)
| Glyph (status : Status) (markX markY markSize : number)
| Connector (fromX fromY toX toY : number)
| Badge (x y : number)
| FillText (font : Font) (line : Line).

Record Canvas : Type := {
  width : number;
  height : number;
  commands : list Command
}.

Inductive Orientation : Type := landscape | portrait.

(** One call of [pdf.addPage([w, h], orientation)] with the image placed
    on it: [page_width] and [page_height] are the format passed to the
    call.  The library (jsPDF, not part of the sources) lays out a page
    of that format as long as neither side exceeds 14400 pt, which is
    19200 px under the [px_scaling] hotfix, and clamps a larger side;
    statements about the size of a page of the document therefore assume
    [Checks.fitsPage]. *)
Record PdfPage : Type := {
  page_width : number;
  page_height : number;
  orientation : Orientation;
  picture : Canvas
}.

(** [marks.filter((m) => m.pageIndex === i).sort((a, b) => a.y - b.y)]. *)
Definition pageMarks (marks : list Mark.t) (i : nat) : list Mark.t :=
  JsArray.sort (fun a b => Double.sub (Mark.y a) (Mark.y b))
    (filter (fun m => Mark.pageIndex m =? i) marks).

Definition sidebarWidth (originalWidth : number) : number :=
  Double.floor (Double.mul originalWidth (Double.lit (45 # 100))).

Definition totalWidth (originalWidth : number) : number :=
  Double.add originalWidth (sidebarWidth originalWidth).

Definition sidebarPadding : number := 40.

Definition baseFontSize (originalWidth : number) : number :=
  Double.floor (Double.mul originalWidth (Double.lit (15 # 1000))).

Definition lineHeight (originalWidth : number) : number :=
  Double.mul (baseFontSize originalWidth) (Double.lit (15 # 10)).

Definition texts (font : Font) (lines : list Line) : list Command :=
  map (FillText font) lines.

(** The callback of [pageMarks.forEach]: the commands issued so far and
    [currentSidebarY]. *)
Definition renderMark (env : Env) (originalWidth originalHeight : number)
  (st : list Command * number) (mark : Mark.t) : list Command * number :=
  let '(cmds, currentSidebarY) := st in
  let sidebarContentWidth :=
    Double.sub (sidebarWidth originalWidth) (Double.mul sidebarPadding 2) in
  let base := baseFontSize originalWidth in
  let lh := lineHeight originalWidth in
  let markX := Double.mul (Double.div (Mark.x mark) 100) originalWidth in
  let markY := Double.mul (Double.div (Mark.y mark) 100) originalHeight in
  let sidebarX := Double.add originalWidth sidebarPadding in
  let markSize := Double.mul originalWidth (Double.lit (3 # 100)) in
  let marks :=
    [Glyph (Mark.status mark) markX markY markSize;
     Connector (Double.add markX markSize) markY
       originalWidth (Double.add currentSidebarY base);
     Badge (Double.sub sidebarX 15)
       (Double.add currentSidebarY (Double.div base 2))] in
  let '(l1, y1) :=
    wrapText (measureText env (Bold base))
      (JsString.or_else (Mark.question mark) (js "Question"))
      sidebarX currentSidebarY sidebarContentWidth lh in
  let '(l2, y2) :=
    wrapText (measureText env (Regular base))
      (js "Ans: " ++ JsString.or_else (Mark.studentAnswer mark) [])
      sidebarX (Double.add y1 5) sidebarContentWidth lh in
  let '(c3, y3) :=
    if Status_eqb (Mark.status mark) incorrect
       && JsString.truthy (Mark.correctAnswer mark) then
      let '(l3, y3) :=
        wrapText (measureText env (Italic base))
          (js "Correct: " ++ JsString.or_else (Mark.correctAnswer mark) [])
          sidebarX (Double.add y2 5) sidebarContentWidth lh in
      (texts (Italic base) l3, y3)
    else ([], y2) in
  let '(c4, y4) :=
    if JsString.truthy (Mark.explanation mark) then
      let small := Double.floor (Double.mul base (Double.lit (9 # 10))) in
      let '(l4, y4) :=
        wrapText (measureText env (Regular small))
          (js "Note: " ++ JsString.or_else (Mark.explanation mark) [])
          sidebarX (Double.add y3 5) sidebarContentWidth
          (Double.mul lh (Double.lit (9 # 10))) in
      (texts (Regular small) l4, y4)
    else ([], y3) in
  (cmds ++ marks ++ texts (Bold base) l1 ++ texts (Regular base) l2 ++ c3 ++ c4,
   Double.add y4 (Double.mul lh (Double.lit (15 # 10)))).

(** Steps 2 to 4 of the page loop: the canvas of one page. *)
Definition renderPage (env : Env) (page : Page.t) (originalWidth originalHeight : number)
  (marks : list Mark.t) : Canvas :=
  let sw := sidebarWidth originalWidth in
  let tw := totalWidth originalWidth in
  let header :=
    {| text := js "Grading Report / 评分报告";
       at_x := Double.add originalWidth sidebarPadding;
       at_y := 60 |} in
  let base :=
    [FillRect 0 0 tw originalHeight;
     DrawImage (Page.imageUrl page);
     FillRect originalWidth 0 sw originalHeight;
     Divider originalWidth originalHeight;
     FillText
       (Bold (Double.floor (Double.mul originalWidth (Double.lit (25 # 1000)))))
       header] in
  {| width := tw;
     height := originalHeight;
     commands :=
       fst (fold_left (renderMark env originalWidth originalHeight) marks
              (base, Double.add 60 60)) |}.

(** The page loop, from page [i] on; [pdf] holds the pages added so
    far. *)
Fixpoint assemble (env : Env) (i : nat) (pages : list Page.t)
  (marks : list Mark.t) (pdf : list PdfPage) : Outcome (list PdfPage) :=
  match pages with
  | [] => Resolved pdf
  | page :: rest =>
    let sorted := pageMarks marks i in
    match loadImage env (Page.imageUrl page) with
    | None => Rejected (ImageLoadError i)
    | Some (naturalWidth, naturalHeight) =>
      let originalWidth := inject_Z naturalWidth in
      let originalHeight := inject_Z naturalHeight in
      let tw := totalWidth originalWidth in
      if negb (getContext env i) then assemble env (S i) rest marks pdf
      else
        let canvas := renderPage env page originalWidth originalHeight sorted in
        assemble env (S i) rest marks
          (pdf ++ [{| page_width := tw;
                      page_height := originalHeight;
                      orientation :=
                        if Double.gt tw originalHeight then landscape
                        else portrait;
                      picture := canvas |}])
    end
  end.

Definition generateGradedPDF (env : Env) (pages : list Page.t)
  (marks : list Mark.t) : Outcome (list PdfPage) :=
  assemble env 0 pages marks [].

End Compositor.

(* ===================================================================== *)
(** * Notions used in the statements *)
(* ===================================================================== *)

Module Notions.

(** The comparator [(a, b) => key(a) - key(b)] and the order it is meant
    to produce. *)
Definition byKey {A : Type} (key : A -> number) (a b : A) : number :=
  Double.sub (key a) (key b).

Definition keyLe {A : Type} (key : A -> number) (a b : A) : Prop :=
  (key a <= key b)%Q.

(** The first [n] random draws of a grading call: distinct draws gave
    distinct suffixes, and a suffix is made of base-36 digits (it holds no
    hyphen). *)
Definition fairDraws (env : Reconciler.Env) (n : nat) : Prop :=
  (forall i j, (i < n)%nat -> (j < n)%nat ->
     Reconciler.randomSuffix env i = Reconciler.randomSuffix env j -> i = j) /\
  (forall i, (i < n)%nat ->
     ~ In JsString.hyphen (Reconciler.randomSuffix env i)).

(** The number of draws a grading call makes: one for each mark it
    creates. *)
Definition drawCount (env : Reconciler.Env) (pages : list Page.t) : nat :=
  match Reconciler.gradeExamPages env pages with
  | Resolved (created, _) => length created
  | Rejected _ => 0
  end.

Definition rawXY (m : Raw.t) : number * number := (Raw.x m, Raw.y m).
Definition markXY (m : Mark.t) : number * number := (Mark.x m, Mark.y m).

(** The j-th mark created by a call carries the j-th draw. *)
Definition drawn (env : Reconciler.Env) (marks : list Mark.t) (n : nat) : Prop :=
  length marks = n /\
  forall j m, nth_error marks j = Some m ->
    exists pid,
      Mark.id m = js "mark-" ++ pid ++ js "-" ++ Reconciler.randomSuffix env j.

(** What a session guarantees about the ids in the [marks] state, given
    the clock readings [used] by the adds made so far. *)
Definition wellNamed (used : list Z) (marks : list Mark.t) : Prop :=
  NoDup (map Mark.id marks) /\
  forall m, In m marks ->
    (exists t, In t used /\ Mark.id m = js "manual-" ++ JsString.of_int t) \/
    (exists rest, Mark.id m = js "mark-" ++ rest).

Definition fairSession (events : list Editor.Event) : Prop :=
  forall env pages,
    In (Editor.FilesGraded env pages) events ->
    fairDraws env (drawCount env pages).

Definition nonEmpty (l : Compositor.Line) : Prop := Compositor.text l <> [].

Definition loads (env : Compositor.Env) (page : Page.t) : Prop :=
  Compositor.loadImage env (Page.imageUrl page) <> None.

End Notions.

(* ===================================================================== *)
(** * Sample inputs *)
(* ===================================================================== *)

Module Samples.

(** A service that answers every page with one mark, given the rotation
    and the language it reports; the n-th random suffix is n in decimal. *)
Definition oneMarkService (rotation : Z) (language : string) (m : Raw.t)
  : Reconciler.Env :=
  {| Reconciler.apiKeyConfigured := true;
     Reconciler.generateContent := fun _ =>
       Some (Reconciler.Text
               {| Reconciler.rotation_needed := Some rotation;
                  Reconciler.detected_language := Some (js language);
                  Reconciler.marks := Some [m] |});
     Reconciler.canvasRotate := fun url _ => Some (url ++ js "#rotated");
     Reconciler.randomSuffix := fun n => JsString.of_int (Z.of_nat n) |}.

Definition scan : Page.t := Page.mk (js "p1") (js "blob:1") 0 None.

Definition markAt (name : string) (y : number) : Mark.t :=
  Mark.mk (js name) 50 y correct 0 None None None None.

Definition fourMarks : list Mark.t :=
  [markAt "a" 50; markAt "b" 10; markAt "c" 90; markAt "d" 10].

(** Text metrics: every code unit is 10 pixels wide. *)
Definition tenPerUnit (s : jsstring) : number :=
  (10 * inject_Z (Z.of_nat (length s)))%Q.

(** A browser in which every image has the given size. *)
Definition browser (size : Z * Z) (context : bool) : Compositor.Env :=
  {| Compositor.loadImage := fun _ => Some size;
     Compositor.getContext := fun _ => context;
     Compositor.measureText := fun _ => tenPerUnit |}.

Definition brokenImage : Compositor.Env :=
  {| Compositor.loadImage := fun _ => None;
     Compositor.getContext := fun _ => true;
     Compositor.measureText := fun _ => tenPerUnit |}.

End Samples.

(* ===================================================================== *)
(** * The grading canvas ([components/GradingCanvas.tsx]) *)
(* ===================================================================== *)

Module GradingCanvas.

(** [Math.min] and [Math.max] of two numbers. *)
Definition mathMin (a b : number) : number := if Qle_bool a b then a else b.
Definition mathMax (a b : number) : number := if Qle_bool a b then b else a.

(** [imgRef.current.getBoundingClientRect()]. *)
Record Rect : Type := {
  left : number;
  top : number;
  width : number;
  height : number
}.

(** A click on the image wrapper: whether the image is mounted
    ([imgRef.current]), whether the target lies in a button or a note,
    the pointer position and the rectangle of the image. *)
Record Click : Type := {
  imgMounted : bool;
  onControl : bool;
  clientX : number;
  clientY : number;
  rect : Rect
}.

(** What a click does: nothing, [setExpandedMarkId(null)], or
    [onAddMark(safeX, safeY, pageIndex)]. *)
Inductive Effect : Type :=
| Ignored
| NoteClosed
| MarkRequested (safeX safeY : number) (pageIndex : nat).

Definition handleImageClick (expandedMarkId : option jsstring) (pageIndex : nat)
  (e : Click) : Effect :=
  if negb (imgMounted e) then Ignored
  else if onControl e then Ignored
  else if JsString.truthy expandedMarkId then NoteClosed
  else
    let x :=
      Double.mul (Double.div (Double.sub (clientX e) (left (rect e)))
                    (width (rect e))) 100 in
    let y :=
      Double.mul (Double.div (Double.sub (clientY e) (top (rect e)))
                    (height (rect e))) 100 in
    let safeX := mathMax 0 (mathMin 100 x) in
    let safeY := mathMax 0 (mathMin 100 y) in
    MarkRequested safeX safeY pageIndex.

Definition flip (s : Status) : Status :=
  match s with
  | correct => incorrect
  | incorrect => correct
  end.

(** [{ ...mark, status: mark.status === 'correct' ? 'incorrect' : 'correct' }]. *)
Definition toggled (mark : Mark.t) : Mark.t :=
  Mark.mk (Mark.id mark) (Mark.x mark) (Mark.y mark) (flip (Mark.status mark))
    (Mark.pageIndex mark) (Mark.question mark) (Mark.studentAnswer mark)
    (Mark.correctAnswer mark) (Mark.explanation mark).

(** [handleMarkStatusToggle], with [onUpdateMark] bound to the editor's
    [updateMark]. *)
Definition handleMarkStatusToggle (mark : Mark.t) (marks : list Mark.t)
  : list Mark.t :=
  Editor.updateMark (toggled mark) marks.

(** [setExpandedMarkId(prev => prev === markId ? null : markId)]. *)
Definition toggleNote (markId : jsstring) (prev : option jsstring)
  : option jsstring :=
  match prev with
  | Some p => if JsString.eqb p markId then None else Some markId
  | None => Some markId
  end.

End GradingCanvas.

(* ===================================================================== *)
(** * What the user does to the marks of a session *)
(* ===================================================================== *)

Module Session.

(** The counters of the review bar ([App.tsx]):
    [marks.filter(m => m.status === s).length]. *)
Definition count (s : Status) (marks : list Mark.t) : nat :=
  length (filter (fun m => Status_eqb (Mark.status m) s) marks).

(** The user actions that reach the [marks] state: a grading run, a
    click on the image, the status button and the trash button of the
    i-th mark of the list, and starting over. *)
Inductive Action : Type :=
| Graded (env : Reconciler.Env) (pages : list Page.t)
| Clicked (expandedMarkId : option jsstring) (pageIndex : nat)
    (e : GradingCanvas.Click) (now : Z)
| StatusToggled (i : nat)
| Trashed (i : nat)
| StartedOver.

Definition act (marks : list Mark.t) (a : Action) : list Mark.t :=
  match a with
  | Graded env pages => Editor.step marks (Editor.FilesGraded env pages)
  | Clicked expandedMarkId pageIndex e now =>
    match GradingCanvas.handleImageClick expandedMarkId pageIndex e with
    | GradingCanvas.MarkRequested safeX safeY p =>
      Editor.addMark now safeX safeY p marks
    | _ => marks
    end
  | StatusToggled i =>
    match nth_error marks i with
    | Some mark => GradingCanvas.handleMarkStatusToggle mark marks
    | None => marks
    end
  | Trashed i =>
    match nth_error marks i with
    | Some mark => Editor.removeMark (Mark.id mark) marks
    | None => marks
    end
  | StartedOver => []
  end.

Definition play (actions : list Action) : list Mark.t :=
  fold_left act actions [].

End Session.

(* ===================================================================== *)
(** * File names of the report ([App.tsx]) *)
(* ===================================================================== *)

Module FileName.

(** [interface StudentInfo]. *)
Record StudentInfo : Type := { name : jsstring; email : jsstring }.

(** The class [\s] of a regular expression: white space and line
    terminators. *)
Definition isWhiteSpace (c : JsString.code_unit) : bool :=
  ((9 <=? c) && (c <=? 13) || (c =? 32) || (c =? 160) || (c =? 5760)
   || (8192 <=? c) && (c <=? 8202) || (c =? 8232) || (c =? 8233)
   || (c =? 8239) || (c =? 8287) || (c =? 12288) || (c =? 65279))%N.

Definition underscore : JsString.code_unit := 95%N.

(** [s.replace(/\s+/g, '_')]: every maximal run of white space becomes
    one underscore; [inRun] tells that the previous unit was white
    space. *)
Fixpoint replaceRuns (inRun : bool) (s : jsstring) : jsstring :=
  match s with
  | [] => []
  | c :: rest =>
    if isWhiteSpace c then
      if inRun then replaceRuns true rest
      else underscore :: replaceRuns true rest
    else c :: replaceRuns false rest
  end.

Definition replaceWhiteSpace (s : jsstring) : jsstring := replaceRuns false s.

(** The name [handleShare] writes and shares. *)
Definition shareFileName (studentInfo : StudentInfo) : jsstring :=
  js "Exam_Graded_" ++ replaceWhiteSpace (name studentInfo) ++ js ".pdf".

(** The name of the download link of the completed view:
    [studentInfo?.name?.replace(/\s+/g, '_') || 'Student']. *)
Definition downloadFileName (studentInfo : option StudentInfo) : jsstring :=
  js "Exam_Graded_"
  ++ JsString.or_else
       (option_map (fun info => replaceWhiteSpace (name info)) studentInfo)
       (js "Student")
  ++ js ".pdf".

End FileName.

(* ===================================================================== *)
(** * Further notions and sample inputs *)
(* ===================================================================== *)

Module Checks.

(** A percentage: a JavaScript number between 0 and 100. *)
Definition percentage (v : number) : Prop :=
  (0 <= v <= 100)%Q /\ Double.format v.

Definition rawOnPage (m : Raw.t) : Prop :=
  percentage (Raw.x m) /\ percentage (Raw.y m).

Definition markOnPage (m : Mark.t) : Prop :=
  percentage (Mark.x m) /\ percentage (Mark.y m).

(** The marks the service reports for a page, and the rotation and the
    language [gradeExamPages] reads from its answer. *)
Definition reported (env : Reconciler.Env) (page : Page.t) : list Raw.t :=
  match Reconciler.generateContent env page with
  | Some (Reconciler.Text result) =>
    match Reconciler.marks result with Some l => l | None => [] end
  | _ => []
  end.

Definition rotationOf (env : Reconciler.Env) (page : Page.t) : Z :=
  match Reconciler.generateContent env page with
  | Some (Reconciler.Text result) =>
    match Reconciler.rotation_needed result with Some r => r | None => 0%Z end
  | _ => 0%Z
  end.

(** Where a mark lands: coordinates, page and status. *)
Definition placement (m : Mark.t) : number * number * nat * Status :=
  (Mark.x m, Mark.y m, Mark.pageIndex m, Mark.status m).

(** The placements [gradeExamPages] is to produce for the pages from
    index [i] on. *)
Fixpoint expectedPlacements (env : Reconciler.Env) (i : nat) (pages : list Page.t)
  : list (number * number * nat * Status) :=
  match pages with
  | [] => []
  | page :: rest =>
    map (fun m =>
           let m' := Reconciler.transformMark (rotationOf env page) m in
           (Raw.x m', Raw.y m', i, Raw.status m'))
        (reported env page)
    ++ expectedPlacements env (S i) rest
  end.

(** The language stored with a page: the detected one, English when the
    answer names none. *)
Definition languageOf (result : Reconciler.ServiceResult) : jsstring :=
  JsString.or_else (Reconciler.detected_language result) (js "en").

(** What [gradeExamPages] is to store for a page: the page itself when
    the answer has no text, otherwise the page with the turned image and
    the language. *)
Definition corrected (env : Reconciler.Env) (page page' : Page.t) : Prop :=
  match Reconciler.generateContent env page with
  | Some (Reconciler.Text result) =>
    Page.id page' = Page.id page /\
    Page.file page' = Page.file page /\
    Page.detectedLanguage page' = Some (languageOf result) /\
    Reconciler.rotateImage env (Page.imageUrl page) (rotationOf env page)
    = Some (Page.imageUrl page')
  | _ => page' = page
  end.

(** A page the service answers and whose image can be turned as asked. *)
Definition gradable (env : Reconciler.Env) (page : Page.t) : Prop :=
  Reconciler.generateContent env page <> None /\
  Reconciler.rotateImage env (Page.imageUrl page) (rotationOf env page) <> None.

(** A mark all of whose texts are present and not empty. *)
Definition texted (m : Mark.t) : Prop :=
  JsString.truthy (Mark.question m) = true /\
  JsString.truthy (Mark.studentAnswer m) = true /\
  JsString.truthy (Mark.correctAnswer m) = true /\
  JsString.truthy (Mark.explanation m) = true.

(** A service whose marks are percentages. *)
Definition reportsPercentages (env : Reconciler.Env) : Prop :=
  forall page, Forall rawOnPage (reported env page).

(** The percentage of a click along one axis before it is clamped, and
    [Math.max(0, Math.min(100, v))]. *)
Definition alongAxis (client origin size : number) : number :=
  Double.mul (Double.div (Double.sub client origin) size) 100.

Definition clampPercent (v : number) : number :=
  GradingCanvas.mathMax 0 (GradingCanvas.mathMin 100 v).

(** A click that reaches the image while no note is open. *)
Definition reachesImage (expandedMarkId : option jsstring)
  (e : GradingCanvas.Click) : Prop :=
  GradingCanvas.imgMounted e = true /\
  GradingCanvas.onControl e = false /\
  JsString.truthy expandedMarkId = false.

(** The rectangle of the image is a real one: its sides are positive
    JavaScript numbers. *)
Definition laidOut (e : GradingCanvas.Click) : Prop :=
  let r := GradingCanvas.rect e in
  Double.format (GradingCanvas.width r) /\
  Double.format (GradingCanvas.height r) /\
  (0 < GradingCanvas.width r)%Q /\ (0 < GradingCanvas.height r)%Q.

(** The image of a click has a size. *)
Definition sized (e : GradingCanvas.Click) : Prop :=
  ~ (GradingCanvas.width (GradingCanvas.rect e) == 0)%Q /\
  ~ (GradingCanvas.height (GradingCanvas.rect e) == 0)%Q.

Definition fairAction (a : Session.Action) : Prop :=
  match a with
  | Session.Graded env _ => reportsPercentages env
  | Session.Clicked _ _ e _ => sized e
  | _ => True
  end.

(** The cursor after [k] line advances from [y]. *)
Definition cursorAfter (lineHeight y : number) (k : nat) : number :=
  Nat.iter k (fun c => Double.add c lineHeight) y.

(** A line fits when it is no wider than the maximum width. *)
Definition fits (measure : jsstring -> number) (maxWidth : number) (s : jsstring)
  : Prop :=
  (measure s <= maxWidth)%Q.

(** A line of one character at most is drawn whatever its width. *)
Definition shortOrFits (measure : jsstring -> number) (maxWidth : number)
  (s : jsstring) : Prop :=
  (length s <= 1)%nat \/ fits measure maxWidth s.

(** The break between the lines [a] and [b] was forced: [a] with the
    first character of [b] is wider than the maximum width. *)
Definition forcedBreak (measure : jsstring -> number) (maxWidth : number)
  (a b : jsstring) : Prop :=
  match b with
  | c :: _ => (maxWidth < measure (a ++ [c]))%Q
  | [] => False
  end.

(** Positions: the k-th line is drawn at [x], [k] line heights below
    [y]. *)
Definition placed (x lineHeight y : number) (lines : list Compositor.Line)
  : Prop :=
  forall k l, nth_error lines k = Some l ->
    Compositor.at_x l = x /\
    Compositor.at_y l = cursorAfter lineHeight y k.

(** The largest side, in pixels, of a page the PDF library lays out
    without clamping, and an image (of positive size) whose composited
    canvas stays within it. *)
Definition pageLimit : Z := 19200.

Definition fitsPage (w h : Z) : Prop :=
  (0 < w)%Z /\ (0 < h <= pageLimit)%Z /\ (w + 9 * w / 20 <= pageLimit)%Z.

Definition withinPageLimit (env : Compositor.Env) (page : Page.t) : Prop :=
  match Compositor.loadImage env (Page.imageUrl page) with
  | Some (w, h) => fitsPage w h
  | None => True
  end.

(** Strings without white space, strings of white space only, and
    strings that do not begin with white space. *)
Definition spaceFree (s : jsstring) : Prop :=
  Forall (fun c => FileName.isWhiteSpace c = false) s.

Definition allSpace (s : jsstring) : Prop :=
  Forall (fun c => FileName.isWhiteSpace c = true) s.

Definition startsSpaceFree (s : jsstring) : Prop :=
  match s with
  | [] => True
  | c :: _ => FileName.isWhiteSpace c = false
  end.

(** The glyphs stamped by a list of commands. *)
Definition glyphs (commands : list Compositor.Command)
  : list (Status * number * number) :=
  flat_map (fun c =>
              match c with
              | Compositor.Glyph s markX markY _ => [(s, markX, markY)]
              | _ => []
              end) commands.

(** Where the glyph of a mark is stamped on an image of the given
    size. *)
Definition stamp (originalWidth originalHeight : number) (m : Mark.t)
  : Status * number * number :=
  (Mark.status m,
   Double.mul (Double.div (Mark.x m) 100) originalWidth,
   Double.mul (Double.div (Mark.y m) 100) originalHeight).

(** The text written by a list of commands, and the text the sidebar
    is to show for a mark. *)
Definition written (commands : list Compositor.Command) : jsstring :=
  flat_map (fun c =>
              match c with
              | Compositor.FillText _ line => Compositor.text line
              | _ => []
              end) commands.

Definition sidebarText (mark : Mark.t) : jsstring :=
  JsString.or_else (Mark.question mark) (js "Question")
  ++ (js "Ans: " ++ JsString.or_else (Mark.studentAnswer mark) [])
  ++ (if Status_eqb (Mark.status mark) incorrect
         && JsString.truthy (Mark.correctAnswer mark)
      then js "Correct: " ++ JsString.or_else (Mark.correctAnswer mark) []
      else [])
  ++ (if JsString.truthy (Mark.explanation mark)
      then js "Note: " ++ JsString.or_else (Mark.explanation mark) []
      else []).

(** The page [generateGradedPDF] adds for an image of the given natural
    size. *)
Definition sheetOf (env : Compositor.Env) (page : Page.t) (size : Z * Z)
  (laidOut : list Mark.t) : Compositor.PdfPage :=
  let originalWidth := inject_Z (fst size) in
  let originalHeight := inject_Z (snd size) in
  {| Compositor.page_width := Compositor.totalWidth originalWidth;
     Compositor.page_height := originalHeight;
     Compositor.orientation :=
       if Double.gt (Compositor.totalWidth originalWidth) originalHeight
       then Compositor.landscape else Compositor.portrait;
     Compositor.picture :=
       Compositor.renderPage env page originalWidth originalHeight laidOut |}.

End Checks.

Module MoreSamples.

(** A click in the middle of an image of 400 by 600 pixels shown at
    (20, 100). *)
Definition middleClick : GradingCanvas.Click :=
  {| GradingCanvas.imgMounted := true;
     GradingCanvas.onControl := false;
     GradingCanvas.clientX := 220;
     GradingCanvas.clientY := 400;
     GradingCanvas.rect :=
       {| GradingCanvas.left := 20; GradingCanvas.top := 100;
          GradingCanvas.width := 400; GradingCanvas.height := 600 |} |}.

(** A click on the wrapper of the same image, left of the image and
    below it. *)
Definition outsideClick : GradingCanvas.Click :=
  {| GradingCanvas.imgMounted := true;
     GradingCanvas.onControl := false;
     GradingCanvas.clientX := 10;
     GradingCanvas.clientY := 800;
     GradingCanvas.rect :=
       {| GradingCanvas.left := 20; GradingCanvas.top := 100;
          GradingCanvas.width := 400; GradingCanvas.height := 600 |} |}.

(** A service that reports two marks on every page and wants the page
    turned by 90 degrees. *)
Definition twoMarkService : Reconciler.Env :=
  {| Reconciler.apiKeyConfigured := true;
     Reconciler.generateContent := fun _ =>
       Some (Reconciler.Text
               {| Reconciler.rotation_needed := Some 90%Z;
                  Reconciler.detected_language := Some (js "zh");
                  Reconciler.marks :=
                    Some [Raw.mk 10 20 correct None None None None;
                          Raw.mk 75 (25 # 2) incorrect (Some (js "2+2")) None
                            (Some (js "4")) None] |});
     Reconciler.canvasRotate := fun url _ => Some (url ++ js "#rotated");
     Reconciler.randomSuffix := fun n => JsString.of_int (Z.of_nat n) |}.

End MoreSamples.

(* ===================================================================== *)
(** * Facts about binary64 rounding *)
(* ===================================================================== *)

Module DoubleFacts.
Import Double.
Local Open Scope Q_scope.

Lemma scale_pos : (0 < scale)%Z.
Proof. unfold scale, emin. apply Z.pow_pos_nonneg; lia. Qed.

Lemma scale_posQ : 0 < inject_Z scale.
Proof. change (inject_Z 0 < inject_Z scale). rewrite <- Zlt_Qlt. apply scale_pos. Qed.

Lemma pow2_pos (e : Z) : (0 <= e)%Z -> (0 < 2 ^ e)%Z.
Proof. intros. apply Z.pow_pos_nonneg; lia. Qed.

Lemma pow2_posQ (e : Z) : (0 <= e)%Z -> 0 < inject_Z (2 ^ e).
Proof.
  intros. change (inject_Z 0 < inject_Z (2 ^ e)). rewrite <- Zlt_Qlt.
  now apply pow2_pos.
Qed.

Lemma ulp_exp_nonneg (q : Q) : (0 <= ulp_exp q)%Z.
Proof. unfold ulp_exp. lia. Qed.

(** ** Nearest integer, ties to even *)

Lemma Qfloor_unique (q : Q) (z : Z) :
  inject_Z z <= q -> q < inject_Z (z + 1) -> Qfloor q = z.
Proof.
  intros Hl Hu.
  pose proof (Qfloor_le q) as H1. pose proof (Qlt_floor q) as H2.
  assert (inject_Z z < inject_Z (Qfloor q + 1)) as A by lra.
  assert (inject_Z (Qfloor q) < inject_Z (z + 1)) as B by lra.
  rewrite <- Zlt_Qlt in A, B. lia.
Qed.

Lemma rne_cases (q : Q) :
  (rne q = Qfloor q /\ q - inject_Z (Qfloor q) <= 1 # 2) \/
  (rne q = (Qfloor q + 1)%Z /\ 1 # 2 <= q - inject_Z (Qfloor q)).
Proof.
  unfold rne.
  destruct (Qcompare_spec (q - inject_Z (Qfloor q)) (1 # 2)) as [E | L | G].
  - destruct (Z.even (Qfloor q)); [left | right]; split; auto; lra.
  - left; split; auto; lra.
  - right; split; auto; lra.
Qed.

Lemma rne_error (q : Q) : Qabs (inject_Z (rne q) - q) <= 1 # 2.
Proof.
  pose proof (Qfloor_le q) as H1. pose proof (Qlt_floor q) as H2.
  rewrite inject_Z_plus in H2.
  apply Qabs_Qle_condition.
  destruct (rne_cases q) as [[-> H] | [-> H]];
    rewrite ?inject_Z_plus; change (inject_Z 1) with 1 in *; split; lra.
Qed.

Lemma rne_ge_int (q : Q) (k : Z) : inject_Z k <= q -> (k <= rne q)%Z.
Proof.
  intros H. apply Qfloor_resp_le in H. rewrite Qfloor_Z in H.
  destruct (rne_cases q) as [[-> _] | [-> _]]; lia.
Qed.

Lemma rne_le_int (q : Q) (k : Z) : q <= inject_Z k -> (rne q <= k)%Z.
Proof.
  intros H.
  pose proof (Qfloor_le q) as H1.
  destruct (rne_cases q) as [[-> _] | [-> Hh]].
  - rewrite Zle_Qle. lra.
  - destruct (Z_lt_le_dec (Qfloor q) k) as [L | G]; [lia |].
    exfalso. rewrite Zle_Qle in G. lra.
Qed.

Lemma rne_int (k : Z) : rne (inject_Z k) = k.
Proof.
  apply Z.le_antisymm; [apply rne_le_int | apply rne_ge_int]; lra.
Qed.

Lemma rne_comp (p q : Q) : p == q -> rne p = rne q.
Proof.
  intros E. unfold rne.
  assert (Qfloor p = Qfloor q) as F by (now rewrite E).
  rewrite F.
  assert (Qcompare (p - inject_Z (Qfloor q)) (1 # 2)
          = Qcompare (q - inject_Z (Qfloor q)) (1 # 2)) as C by (now rewrite E).
  now rewrite C.
Qed.


(** ** The grid of a rational: its exponent *)

Lemma ulp_exp_comp (p q : Q) : p == q -> ulp_exp p = ulp_exp q.
Proof. intros E. unfold ulp_exp. now rewrite E. Qed.

Lemma round_comp (p q : Q) : p == q -> round p = round q.
Proof.
  intros E. unfold round. rewrite (ulp_exp_comp p q E).
  apply Qred_complete.
  rewrite (rne_comp (p * inject_Z scale / inject_Z (2 ^ ulp_exp q))
                    (q * inject_Z scale / inject_Z (2 ^ ulp_exp q)));
    [reflexivity | now rewrite E].
Qed.

Lemma round_scaled (q : Q) :
  round q * inject_Z scale ==
  inject_Z (rne (q * inject_Z scale / inject_Z (2 ^ ulp_exp q)) * 2 ^ ulp_exp q).
Proof.
  unfold round. rewrite Qred_correct.
  pose proof scale_posQ. field. lra.
Qed.

Lemma scaled_upper (q : Q) :
  Qabs q * inject_Z scale <
  inject_Z (2 ^ (Z.log2 (Qfloor (Qabs q * inject_Z scale)) + 1)).
Proof.
  set (s := Qabs q * inject_Z scale).
  pose proof (Qlt_floor s) as H.
  destruct (Z_lt_le_dec 0 (Qfloor s)) as [P | N].
  - destruct (Z.log2_spec _ P) as [_ U].
    eapply Qlt_le_trans; [exact H |].
    rewrite <- Zle_Qle. unfold Z.succ in U. lia.
  - rewrite (Z.log2_nonpos _ N). simpl.
    eapply Qlt_le_trans; [exact H |].
    rewrite <- Zle_Qle. lia.
Qed.

Lemma scaled_lower (q : Q) :
  (0 < ulp_exp q)%Z ->
  inject_Z (2 ^ (ulp_exp q + 52)) <= Qabs q * inject_Z scale.
Proof.
  unfold ulp_exp.
  set (s := Qabs q * inject_Z scale). intros Hpos.
  pose proof (Qfloor_le s) as H.
  assert (0 < Qfloor s)%Z as P.
  { destruct (Z_lt_le_dec 0 (Qfloor s)) as [P | N]; [exact P |].
    rewrite (Z.log2_nonpos _ N) in Hpos. lia. }
  destruct (Z.log2_spec _ P) as [L _].
  replace (Z.max (Z.log2 (Qfloor s) - 52) 0 + 52)%Z
    with (Z.log2 (Qfloor s)) by lia.
  eapply Qle_trans; [| exact H].
  now rewrite <- Zle_Qle.
Qed.

Lemma significand_bound (q : Q) :
  Qabs q * inject_Z scale <= inject_Z (2 ^ 53 * 2 ^ ulp_exp q).
Proof.
  pose proof (scaled_upper q) as U.
  eapply Qle_trans; [apply Qlt_le_weak, U |].
  rewrite <- Zle_Qle. rewrite <- Z.pow_add_r by (pose proof (ulp_exp_nonneg q); lia).
  apply Z.pow_le_mono_r; [lia |].
  unfold ulp_exp. lia.
Qed.


(** ** Values of the format are fixed points of rounding *)

Lemma grid_dvd (n e : Z) :
  (0 <= e)%Z -> (Z.abs n <= 2 ^ 53)%Z ->
  (2 ^ Z.max (Z.log2 (Z.abs (n * 2 ^ e)) - 52) 0 | n * 2 ^ e)%Z.
Proof.
  intros He Hn.
  destruct (Z.eq_dec n 0) as [-> | Nz].
  { rewrite Z.mul_0_l. apply Z.divide_0_r. }
  pose proof (pow2_pos e He) as Pe.
  rewrite Z.abs_mul, (Z.abs_eq (2 ^ e)) by lia.
  rewrite Z.log2_mul_pow2 by lia.
  assert (Z.log2 (Z.abs n) <= 53)%Z as L53.
  { rewrite <- (Z.log2_pow2 53) by lia. now apply Z.log2_le_mono. }
  pose proof (Z.log2_nonneg (Z.abs n)) as L0.
  destruct (Z_le_gt_dec (Z.log2 (Z.abs n)) 52) as [Small | Big].
  - set (g := Z.max (e + Z.log2 (Z.abs n) - 52) 0).
    assert (0 <= g <= e)%Z as [G0 Ge] by (unfold g; lia).
    exists (n * 2 ^ (e - g))%Z.
    rewrite <- Z.mul_assoc, <- Z.pow_add_r by lia.
    do 2 f_equal. lia.
  - assert (Z.log2 (Z.abs n) = 53)%Z as E53 by lia.
    destruct (Z.log2_spec (Z.abs n)) as [Lo _]; [lia |].
    rewrite E53 in Lo.
    replace (Z.max (e + Z.log2 (Z.abs n) - 52) 0) with (e + 1)%Z by lia.
    exists (Z.sgn n * 2 ^ 52)%Z.
    rewrite Z.pow_add_r by lia.
    assert (n = Z.sgn n * 2 ^ 53)%Z as En by lia.
    rewrite En at 1.
    change (2 ^ 53)%Z with (2 ^ 52 * 2)%Z. change (2 ^ 1)%Z with 2%Z. ring.
Qed.

Lemma Qabs_inject_Z (m : Z) : Qabs (inject_Z m) = inject_Z (Z.abs m).
Proof. reflexivity. Qed.

Lemma format_scaled_abs (q : Q) (m : Z) :
  q * inject_Z scale == inject_Z m ->
  Qabs q * inject_Z scale == inject_Z (Z.abs m).
Proof.
  intros E. rewrite <- Qabs_inject_Z, <- E, Qabs_Qmult.
  rewrite (Qabs_pos (inject_Z scale)); [reflexivity |].
  apply Qlt_le_weak, scale_posQ.
Qed.

Lemma format_round (q : Q) : format q -> round q == q.
Proof.
  intros (n & e & He & Hn & E).
  pose proof scale_posQ as Sp.
  assert (ulp_exp q = Z.max (Z.log2 (Z.abs (n * 2 ^ e)) - 52) 0) as G.
  { unfold ulp_exp. rewrite (format_scaled_abs _ _ E), Qfloor_Z. reflexivity. }
  destruct (grid_dvd n e He Hn) as [k K]. rewrite <- G in K.
  pose proof (pow2_posQ _ (ulp_exp_nonneg q)) as Up.
  assert (q * inject_Z scale / inject_Z (2 ^ ulp_exp q) == inject_Z k) as I.
  { rewrite E, K, inject_Z_mult. field. lra. }
  assert (round q * inject_Z scale == q * inject_Z scale) as R.
  { rewrite round_scaled, (rne_comp _ _ I), rne_int, <- K. now rewrite E. }
  apply (Qmult_inj_r _ _ (inject_Z scale)); [lra | exact R].
Qed.

Lemma round_format (q : Q) : format (round q).
Proof.
  exists (rne (q * inject_Z scale / inject_Z (2 ^ ulp_exp q))), (ulp_exp q).
  split; [apply ulp_exp_nonneg |]. split; [| apply round_scaled].
  pose proof (significand_bound q) as B.
  pose proof (pow2_posQ _ (ulp_exp_nonneg q)) as Up.
  rewrite inject_Z_mult in B.
  set (u := inject_Z (2 ^ ulp_exp q)) in *.
  set (s := q * inject_Z scale).
  assert (Qabs s <= inject_Z (2 ^ 53) * u) as B'.
  { unfold s. rewrite Qabs_Qmult, (Qabs_pos (inject_Z scale)); [exact B |].
    apply Qlt_le_weak, scale_posQ. }
  apply Qabs_Qle_condition in B'. destruct B' as [Lo Hi].
  apply Z.abs_le. split.
  - apply rne_ge_int. rewrite inject_Z_opp.
    apply Qle_shift_div_l; [exact Up |]. lra.
  - apply rne_le_int. apply Qle_shift_div_r; [exact Up |]. lra.
Qed.

Lemma format_comp (p q : Q) : p == q -> format p -> format q.
Proof.
  intros E (n & e & H1 & H2 & H3). exists n, e. now rewrite <- E.
Qed.

Lemma is_double_format (q : Q) : is_double q = true <-> format q.
Proof.
  unfold is_double. rewrite Qeq_bool_iff. split.
  - intros E. apply (format_comp _ _ E), round_format.
  - apply format_round.
Qed.

Lemma round_idempotent (q : Q) : round (round q) == round q.
Proof. apply format_round, round_format. Qed.

(** ** Error of one rounding *)

Lemma round_error (q : Q) :
  Qabs (round q - q) * inject_Z scale <= inject_Z (2 ^ ulp_exp q) * (1 # 2).
Proof.
  pose proof scale_posQ as Sp.
  pose proof (pow2_posQ _ (ulp_exp_nonneg q)) as Up.
  pose proof (round_scaled q) as R. rewrite inject_Z_mult in R.
  set (u := inject_Z (2 ^ ulp_exp q)) in *.
  pose proof (rne_error (q * inject_Z scale / u)) as E.
  set (r := inject_Z (rne (q * inject_Z scale / u))) in *.
  assert (q * inject_Z scale == (q * inject_Z scale / u) * u) as Q1
    by (field; lra).
  set (t := q * inject_Z scale / u) in *.
  rewrite <- (Qabs_pos (inject_Z scale)) at 1 by lra.
  rewrite <- Qabs_Qmult.
  assert ((round q - q) * inject_Z scale == (r - t) * u) as D.
  { transitivity (round q * inject_Z scale - q * inject_Z scale); [ring |].
    rewrite R, Q1. ring. }
  rewrite D, Qabs_Qmult, (Qabs_pos u) by lra.
  rewrite (Qmult_comm u).
  apply Qmult_le_compat_r; [exact E | lra].
Qed.


Lemma ulp_exp_below (q : Q) (j : Z) :
  (0 <= j)%Z ->
  Qabs q * inject_Z scale < inject_Z (2 ^ (j + 53)) ->
  (ulp_exp q <= j)%Z.
Proof.
  intros Hj B. unfold ulp_exp.
  set (s := Qabs q * inject_Z scale) in *.
  pose proof (Qfloor_le s) as F.
  destruct (Z_lt_le_dec 0 (Qfloor s)) as [P | N].
  - assert (Qfloor s < 2 ^ (j + 53))%Z as L by (rewrite Zlt_Qlt; lra).
    apply Z.log2_lt_pow2 in L; lia.
  - rewrite (Z.log2_nonpos _ N). lia.
Qed.

Lemma round_error_below (q : Q) (j : Z) :
  (0 <= j)%Z ->
  Qabs q * inject_Z scale < inject_Z (2 ^ (j + 53)) ->
  Qabs (round q - q) * inject_Z scale <= inject_Z (2 ^ j) * (1 # 2).
Proof.
  intros Hj B.
  pose proof (ulp_exp_below q j Hj B) as U.
  pose proof (round_error q) as E.
  assert (inject_Z (2 ^ ulp_exp q) <= inject_Z (2 ^ j)) as M.
  { rewrite <- Zle_Qle. apply Z.pow_le_mono_r; lia. }
  lra.
Qed.

(** Below 128 one rounding moves a value by at most 2^-47. *)
Lemma round_error_128 (q : Q) :
  Qabs q < 128 -> Qabs (round q - q) <= 1 # (2 ^ 47).
Proof.
  intros B.
  pose proof scale_posQ as Sp.
  assert (inject_Z scale == inject_Z (2 ^ 1027) * inject_Z (2 ^ 47)) as S1.
  { rewrite <- inject_Z_mult. vm_compute. reflexivity. }
  assert (inject_Z (2 ^ (1028 + 53)) == 128 * inject_Z scale) as S2.
  { change 128 with (inject_Z 128). rewrite <- inject_Z_mult.
    vm_compute. reflexivity. }
  assert (inject_Z (2 ^ 1028) * (1 # 2) == inject_Z scale * (1 # 2 ^ 47)) as S3.
  { vm_compute. reflexivity. }
  pose proof (round_error_below q 1028) as E.
  rewrite S2, S3 in E.
  assert (Qabs q * inject_Z scale < 128 * inject_Z scale) as B'
    by (apply Qmult_lt_compat_r; assumption).
  specialize (E ltac:(lia) B').
  rewrite (Qmult_comm (inject_Z scale)) in E.
  apply Qmult_le_r in E; assumption.
Qed.

(** ** Rounding never crosses a value of the format *)

Lemma round_ge (c q : Q) : format c -> c <= q -> c <= round q.
Proof.
  intros (n & e & He & Hn & Ec) H.
  pose proof scale_posQ as Sp.
  pose proof (ulp_exp_nonneg q) as G0.
  pose proof (pow2_posQ _ G0) as Up.
  pose proof (pow2_pos _ G0) as UpZ.
  assert (c * inject_Z scale <= q * inject_Z scale) as Hs
    by (apply Qmult_le_compat_r; lra).
  destruct (Z_le_gt_dec (ulp_exp q) e) as [Coarse | Fine].
  - (* c lies on the grid of q *)
    apply (Qmult_le_r _ _ (inject_Z scale)); [exact Sp |].
    rewrite Ec, round_scaled, <- Zle_Qle.
    replace (n * 2 ^ e)%Z
      with (n * 2 ^ (e - ulp_exp q) * 2 ^ ulp_exp q)%Z.
    2:{ rewrite <- Z.mul_assoc, <- Z.pow_add_r by lia. do 2 f_equal. lia. }
    apply Z.mul_le_mono_nonneg_r; [lia |].
    apply rne_ge_int. apply Qle_shift_div_l; [exact Up |].
    rewrite <- inject_Z_mult.
    replace (n * 2 ^ (e - ulp_exp q) * 2 ^ ulp_exp q)%Z with (n * 2 ^ e)%Z.
    2:{ rewrite <- Z.mul_assoc, <- Z.pow_add_r by lia. do 2 f_equal. lia. }
    now rewrite <- Ec.
  - (* the grid of c is finer: c is at most the bottom of q's binade *)
    pose proof (scaled_lower q ltac:(lia)) as Lo.
    assert (Z.abs (n * 2 ^ e) <= 2 ^ (ulp_exp q + 52))%Z as Bc.
    { rewrite Z.abs_mul, (Z.abs_eq (2 ^ e)) by (pose proof (pow2_pos e He); lia).
      replace (ulp_exp q + 52)%Z with (53 + (ulp_exp q - 1))%Z by lia.
      rewrite Z.pow_add_r by lia.
      apply Z.mul_le_mono_nonneg; try lia.
      apply Z.pow_le_mono_r; lia. }
    rewrite Zle_Qle in Bc. rewrite <- Qabs_inject_Z in Bc.
    apply Qabs_Qle_condition in Bc. destruct Bc as [Bc1 Bc2].
    rewrite <- Ec in Bc1, Bc2.
    destruct (Qlt_le_dec q 0) as [Neg | Pos].
    + rewrite (Qabs_neg q) in Lo by lra.
      assert (c == q) as Eq.
      { apply (Qmult_inj_r _ _ (inject_Z scale)); [lra |].
        apply Qle_antisym; [exact Hs |]. lra. }
      rewrite <- (round_comp c q Eq).
      rewrite format_round; [lra |]. now exists n, e.
    + rewrite (Qabs_pos q) in Lo by lra.
      apply (Qmult_le_r _ _ (inject_Z scale)); [exact Sp |].
      eapply Qle_trans; [exact Bc2 |].
      rewrite round_scaled, <- Zle_Qle.
      rewrite Z.add_comm, Z.pow_add_r by lia.
      apply Z.mul_le_mono_nonneg_r; [lia |].
      apply rne_ge_int. apply Qle_shift_div_l; [exact Up |].
      rewrite <- inject_Z_mult, <- Z.pow_add_r, Z.add_comm by lia.
      exact Lo.
Qed.


(** ** Symmetry *)

Lemma rne_opp (q : Q) : rne (- q) = (- rne q)%Z.
Proof.
  pose proof (Qfloor_le q) as H1. pose proof (Qlt_floor q) as H2.
  rewrite inject_Z_plus in H2. change (inject_Z 1) with 1 in H2.
  destruct (Qlt_le_dec (inject_Z (Qfloor q)) q) as [Frac | Int].
  - assert (Qfloor (- q) = (- Qfloor q - 1)%Z) as F.
    { apply Qfloor_unique.
      - unfold Z.sub. rewrite inject_Z_plus, !inject_Z_opp.
        change (inject_Z 1) with 1. lra.
      - replace (- Qfloor q - 1 + 1)%Z with (- Qfloor q)%Z by lia.
        rewrite inject_Z_opp. lra. }
    assert (inject_Z (- Qfloor q - 1) == - inject_Z (Qfloor q) - 1) as I.
    { unfold Z.sub. rewrite inject_Z_plus, !inject_Z_opp. reflexivity. }
    unfold rne. rewrite F.
    destruct (Qcompare_spec (q - inject_Z (Qfloor q)) (1 # 2)) as [E | L | G];
      destruct (Qcompare_spec (- q - inject_Z (- Qfloor q - 1)) (1 # 2))
        as [E' | L' | G'];
      rewrite I in *; try lra; try lia.
    replace (- Qfloor q - 1)%Z with (- (Qfloor q + 1))%Z by lia.
    rewrite Z.even_opp, Z.even_add. simpl.
    destruct (Z.even (Qfloor q)); simpl; lia.
  - assert (q == inject_Z (Qfloor q)) as E by lra.
    assert (- q == inject_Z (- Qfloor q)) as E'
      by (rewrite inject_Z_opp; lra).
    rewrite (rne_comp _ _ E'), rne_int.
    rewrite (rne_comp _ _ E) at 1. now rewrite rne_int.
Qed.

Lemma round_opp (q : Q) : round (- q) == - round q.
Proof.
  pose proof scale_posQ as Sp.
  assert (ulp_exp (- q) = ulp_exp q) as U.
  { unfold ulp_exp. now rewrite Qabs_opp. }
  apply (Qmult_inj_r _ _ (inject_Z scale)); [lra |].
  transitivity (- (round q * inject_Z scale)); [| ring].
  rewrite !round_scaled, U.
  pose proof (pow2_posQ _ (ulp_exp_nonneg q)) as Up.
  rewrite (rne_comp (- q * inject_Z scale / inject_Z (2 ^ ulp_exp q))
                    (- (q * inject_Z scale / inject_Z (2 ^ ulp_exp q))))
    by (field; lra).
  rewrite rne_opp, <- inject_Z_opp. apply inject_Z_injective. ring.
Qed.

Lemma format_opp (q : Q) : format q -> format (- q).
Proof.
  intros (n & e & He & Hn & E). exists (- n)%Z, e.
  split; [exact He |]. split; [now rewrite Z.abs_opp |].
  rewrite Z.mul_opp_l, inject_Z_opp, <- E. ring.
Qed.

Lemma round_le (c q : Q) : format c -> q <= c -> round q <= c.
Proof.
  intros F H.
  pose proof (round_ge (- c) (- q) (format_opp c F) ltac:(lra)) as G.
  rewrite round_opp in G. lra.
Qed.

(** ** Integers and the sign of a difference *)

Lemma format_int (z : Z) : (Z.abs z <= 2 ^ 53)%Z -> format (inject_Z z).
Proof.
  intros H. exists z, emin. split; [unfold emin; lia |]. split; [exact H |].
  now rewrite <- inject_Z_mult.
Qed.

Lemma round_int (z : Z) : (Z.abs z <= 2 ^ 53)%Z -> round (inject_Z z) == inject_Z z.
Proof. intros H. now apply format_round, format_int. Qed.

Lemma format_scaled_int (q : Q) :
  format q -> exists m : Z, q * inject_Z scale == inject_Z m.
Proof. intros (n & e & _ & _ & E). now exists (n * 2 ^ e)%Z. Qed.

Lemma format_min_double : format min_double.
Proof.
  exists 1%Z, 0%Z. split; [lia |]. split; [simpl; lia |].
  unfold min_double. pose proof scale_posQ. simpl. field. lra.
Qed.

Lemma round_pos (q : Q) : min_double <= q -> 0 < round q.
Proof.
  intros H. pose proof scale_posQ as Sp.
  pose proof (round_ge _ _ format_min_double H) as G.
  assert (0 < min_double) by (unfold min_double; apply Qlt_shift_div_l; lra).
  lra.
Qed.

Lemma round_neg (q : Q) : q <= - min_double -> round q < 0.
Proof.
  intros H. pose proof (round_pos (- q) ltac:(lra)) as G.
  rewrite round_opp in G. lra.
Qed.

Lemma format_gap (a b : Q) :
  format a -> format b -> a < b -> a - b <= - min_double.
Proof.
  intros Fa Fb L. pose proof scale_posQ as Sp.
  destruct (format_scaled_int a Fa) as [ma Ea].
  destruct (format_scaled_int b Fb) as [mb Eb].
  assert (ma < mb)%Z as Lz.
  { rewrite Zlt_Qlt, <- Ea, <- Eb. apply Qmult_lt_compat_r; assumption. }
  assert (inject_Z (ma - mb) <= inject_Z (- 1)) as Lq
    by (rewrite <- Zle_Qle; lia).
  unfold Z.sub in Lq. rewrite inject_Z_plus, inject_Z_opp, <- Ea, <- Eb in Lq.
  apply (Qmult_le_r _ _ (inject_Z scale)); [exact Sp |].
  unfold min_double.
  setoid_replace (- (1 / inject_Z scale) * inject_Z scale) with (inject_Z (- 1))
    by (simpl; field; lra).
  lra.
Qed.

(** In binary64 the sign of [a - b] is the sign of the exact difference:
    gradual underflow keeps a nonzero difference of two doubles nonzero. *)
Lemma sub_neg (a b : Q) : format a -> format b -> a < b -> sub a b < 0.
Proof. intros Fa Fb L. apply round_neg, format_gap; assumption. Qed.

Lemma sub_pos (a b : Q) : format a -> format b -> b < a -> 0 < sub a b.
Proof.
  intros Fa Fb L. apply round_pos.
  pose proof (format_gap b a Fb Fa L). lra.
Qed.

Lemma sub_zero (a b : Q) : a == b -> sub a b == 0.
Proof.
  intros E. unfold sub. rewrite (round_comp (a - b) 0) by lra. reflexivity.
Qed.

(** An operation whose exact result is a binary64 value is exact. *)
Lemma sub_exact (a b : Q) : format (a - b) -> sub a b == a - b.
Proof. apply format_round. Qed.

Create HintDb double discriminated.
#[global] Hint Resolve scale_posQ pow2_posQ ulp_exp_nonneg round_format
  format_min_double format_opp : double.

(** Closes a bound on an absolute value whose two sides are linear. *)
Ltac qabs_linear :=
  first [apply Qabs_Qle_condition | apply Qabs_Qlt_condition]; split; lra.

End DoubleFacts.

(* ===================================================================== *)
(** * The orientation reconciler: coordinates and placeholders *)
(* ===================================================================== *)

Module ReconcilerFacts.
Import Reconciler Notions Samples.
Local Open Scope Q_scope.

(** After four quarter turns the abscissa has been subtracted from 100
    twice; each subtraction rounds once, below 128. *)
Lemma sub_100_twice (v : number) :
  0 <= v <= 100 ->
  Qabs (Double.sub 100 (Double.sub 100 v) - v) <= 1 # (2 ^ 46).
Proof.
  intros [Lo Hi]. unfold Double.sub.
  assert (Qabs (100 - v) < 128) as B1 by DoubleFacts.qabs_linear.
  pose proof (DoubleFacts.round_error_128 _ B1) as E1.
  set (a := Double.round (100 - v)) in *.
  apply Qabs_Qle_condition in E1. destruct E1 as [E1l E1u].
  assert (1 # 2 ^ 47 <= 1) as Small by (vm_compute; discriminate).
  assert (Qabs (100 - a) < 128) as B2 by DoubleFacts.qabs_linear.
  pose proof (DoubleFacts.round_error_128 _ B2) as E2.
  set (b := Double.round (100 - a)) in *.
  apply Qabs_Qle_condition in E2. destruct E2 as [E2l E2u].
  assert ((1 # 2 ^ 46) == (1 # 2 ^ 47) + (1 # 2 ^ 47)) as Two
    by (vm_compute; reflexivity).
  rewrite Two. DoubleFacts.qabs_linear.
Qed.

(** On percentages the computed [100 - v] is within 2^-47 of the exact
    difference, and equal to it when the difference is a binary64 value. *)
Lemma remap_within_rounding (v : number) :
  0 <= v <= 100 ->
  Qabs (Double.sub 100 v - (100 - v)) <= 1 # (2 ^ 47) /\
  (Double.format (100 - v) -> Double.sub 100 v == 100 - v).
Proof.
  intros [Lo Hi]. split; [| apply DoubleFacts.sub_exact].
  apply DoubleFacts.round_error_128. DoubleFacts.qabs_linear.
Qed.

Lemma four_turns (m : Raw.t) :
  transformMark 90 (transformMark 90 (transformMark 90 (transformMark 90 m)))
  = Raw.with_xy m (Double.sub 100 (Double.sub 100 (Raw.x m)))
                  (Double.sub 100 (Double.sub 100 (Raw.y m))).
Proof. destruct m. reflexivity. Qed.

(** C2.  For x and y between 0 and 100, four successive quarter turns
    bring a mark back to within 1e-9 of its coordinates (the roundings of
    the two subtractions each coordinate undergoes add up to at most
    2^-46), and change no other field. *)
Theorem quarter_turn_round_trip (m : Raw.t) :
  0 <= Raw.x m <= 100 -> 0 <= Raw.y m <= 100 ->
  let m4 :=
    transformMark 90 (transformMark 90 (transformMark 90 (transformMark 90 m))) in
  Qabs (Raw.x m4 - Raw.x m) <= 1 # 1000000000 /\
  Qabs (Raw.y m4 - Raw.y m) <= 1 # 1000000000 /\
  m4 = Raw.with_xy m (Raw.x m4) (Raw.y m4).
Proof.
  intros Hx Hy m4. unfold m4. rewrite four_turns.
  assert (1 # 2 ^ 46 <= 1 # 1000000000) as Tol by (vm_compute; discriminate).
  pose proof (sub_100_twice _ Hx). pose proof (sub_100_twice _ Hy).
  destruct m as [x y st q sa ca ex].
  cbn [Raw.x Raw.y Raw.with_xy] in *.
  split; [lra | split; [lra | reflexivity]].
Qed.

Lemma quarter_turn_round_trip_witness :
  Qabs (Raw.x (transformMark 90 (transformMark 90 (transformMark 90
          (transformMark 90 (Raw.mk 10 20 correct None None None None)))))
        - 10) <= 1 # 1000000000.
Proof.
  refine (proj1 (quarter_turn_round_trip
                   (Raw.mk 10 20 correct None None None None) _ _));
    cbn [Raw.x Raw.y]; split; lra.
Defined.

(** The tolerance is needed: below the last place of 100 a coordinate is
    absorbed by the first subtraction and comes back as 0. *)
Example round_trip_is_not_exact :
  Double.is_double (1 # 2 ^ 60) = true /\
  Double.sub 100 (Double.sub 100 (1 # 2 ^ 60)) = 0.
Proof. split; vm_compute; reflexivity. Qed.


(** The code units of the Chinese placeholders. *)
Example placeholder_code_units :
  js "题目" = [0x9898; 0x76EE]%N /\
  js "未知" = [0x672A; 0x77E5]%N /\
  js "无解析" = [0x65E0; 0x89E3; 0x6790]%N.
Proof. repeat split. Qed.

(** ** The marks of a rotated page *)

Lemma pushMarks_spec (env : Env) (page : Page.t) (i : nat) (language : jsstring)
  (raws : list Raw.t) :
  forall acc n,
    pushMarks env page i language raws acc n
    = (acc ++ map (fun km => newMark page i language (randomSuffix env (fst km)) (snd km))
                (combine (seq n (length raws)) raws),
       (n + length raws)%nat).
Proof.
  induction raws as [| r raws IH]; intros acc n; cbn [pushMarks length seq combine map].
  - now rewrite app_nil_r, Nat.add_0_r.
  - rewrite IH, <- app_assoc. cbn [app fst snd]. f_equal. lia.
Qed.

Lemma newMark_coordinates (env : Env) (page : Page.t) (i : nat)
  (language : jsstring) (raws : list Raw.t) :
  forall n,
    map markXY
      (map (fun km => newMark page i language (randomSuffix env (fst km)) (snd km))
         (combine (seq n (length raws)) raws))
    = map rawXY raws.
Proof.
  induction raws as [| r raws IH]; intros n; cbn [length seq combine map];
    [reflexivity |].
  now rewrite IH.
Qed.

(** For a page the service wants rotated, the marks [gradeExamPages]
    creates carry the coordinates [transformMark] computes, in the order
    of the service's marks. *)
Lemma rotated_page_coordinates
  (env : Env) (page : Page.t) (result : ServiceResult)
  (rotation : Z) (raws : list Raw.t) (rotated : jsstring) :
  apiKeyConfigured env = true ->
  generateContent env page = Some (Text result) ->
  rotation_needed result = Some rotation -> rotation <> 0%Z ->
  marks result = Some raws ->
  canvasRotate env (Page.imageUrl page) rotation = Some rotated ->
  exists created corrected,
    gradeExamPages env [page] = Resolved (created, [corrected]) /\
    Page.imageUrl corrected = rotated /\
    map markXY created = map (fun m => rawXY (transformMark rotation m)) raws.
Proof.
  intros Key Gen Rot Nz Ms Turn.
  unfold gradeExamPages. rewrite Key. cbn [negb gradeLoop].
  unfold gradePage. rewrite Gen, Rot, Ms.
  apply Z.eqb_neq in Nz. unfold rotateImage. rewrite Nz, Turn.
  cbn [negb bind allMarks processedPages draws setPage].
  rewrite pushMarks_spec. cbn [bind allMarks processedPages app].
  eexists _, _. split; [reflexivity |]. split; [reflexivity |].
  rewrite newMark_coordinates, map_map. reflexivity.
Qed.

(** End-to-end scenario A: one page, rotation 90, one mark at (10, 20). *)
Example scenario_A :
  exists mark page,
    gradeExamPages
      (oneMarkService 90 "en" (Raw.mk 10 20 correct None None None None))
      [scan]
    = Resolved ([mark], [page]) /\
    Mark.x mark = 80 /\ Mark.y mark = 10 /\
    Page.imageUrl page = js "blob:1#rotated".
Proof. eexists _, _. vm_compute. repeat split. Qed.

(** End-to-end scenario C: a mark without text on a Chinese exam. *)
Example scenario_C :
  exists mark page,
    gradeExamPages
      (oneMarkService 0 "zh" (Raw.mk 10 20 incorrect None None None None))
      [scan]
    = Resolved ([mark], [page]) /\
    Mark.question mark = Some (js "题目") /\
    Mark.studentAnswer mark = Some (js "未知") /\
    Page.detectedLanguage page = Some (js "zh").
Proof. eexists _, _. vm_compute. repeat split. Qed.

(** C1.  For a rotation of 90, 180 or 270 degrees the reconciler gives a
    mark at (x, y) the coordinates (100 - y, x), (100 - x, 100 - y) and
    (y, 100 - x) respectively, the subtraction being the one of
    JavaScript numbers, and keeps every other field; a mark at (10, 20)
    turned by 90 degrees lands at (80, 10).  The marks [gradeExamPages]
    returns for a page the service wants turned carry these coordinates,
    as in scenario A. *)
Theorem reconciler_remaps_coordinates (m : Raw.t) :
  (Raw.x (transformMark 90 m) = Double.sub 100 (Raw.y m) /\
   Raw.y (transformMark 90 m) = Raw.x m) /\
  (Raw.x (transformMark 180 m) = Double.sub 100 (Raw.x m) /\
   Raw.y (transformMark 180 m) = Double.sub 100 (Raw.y m)) /\
  (Raw.x (transformMark 270 m) = Raw.y m /\
   Raw.y (transformMark 270 m) = Double.sub 100 (Raw.x m)) /\
  (forall rotation,
     let m' := transformMark rotation m in
     Raw.status m' = Raw.status m /\
     Raw.question m' = Raw.question m /\
     Raw.student_answer m' = Raw.student_answer m /\
     Raw.correct_answer m' = Raw.correct_answer m /\
     Raw.explanation m' = Raw.explanation m) /\
  (forall s q a c e,
     let m' := transformMark 90 (Raw.mk 10 20 s q a c e) in
     Raw.x m' = 80 /\ Raw.y m' = 10) /\
  (let graded (rotation : Z) (target : Raw.t -> number * number) :=
     forall env page result raws rotated,
       apiKeyConfigured env = true ->
       generateContent env page = Some (Text result) ->
       rotation_needed result = Some rotation ->
       marks result = Some raws ->
       canvasRotate env (Page.imageUrl page) rotation = Some rotated ->
       exists created corrected,
         gradeExamPages env [page] = Resolved (created, [corrected]) /\
         Page.imageUrl corrected = rotated /\
         map markXY created = map target raws in
   graded 90%Z (fun r => (Double.sub 100 (Raw.y r), Raw.x r)) /\
   graded 180%Z
     (fun r => (Double.sub 100 (Raw.x r), Double.sub 100 (Raw.y r))) /\
   graded 270%Z (fun r => (Raw.y r, Double.sub 100 (Raw.x r)))) /\
  exists mark page,
    gradeExamPages
      (oneMarkService 90 "en" (Raw.mk 10 20 correct None None None None))
      [scan]
    = Resolved ([mark], [page]) /\
    Mark.x mark = 80 /\ Mark.y mark = 10.
Proof.
  split; [destruct m; split; reflexivity |].
  split; [destruct m; split; reflexivity |].
  split; [destruct m; split; reflexivity |].
  split.
  { intros rotation m'. subst m'. unfold transformMark.
    destruct m, (rotation =? 90)%Z, (rotation =? 180)%Z, (rotation =? 270)%Z;
      repeat split. }
  split.
  { intros s q a c e m'. subst m'.
    unfold transformMark. cbn [Z.eqb Pos.eqb Raw.with_xy Raw.x Raw.y].
    assert (Double.sub 100 20 = 80) as E by (vm_compute; reflexivity).
    rewrite E. split; reflexivity. }
  split.
  { assert (forall rotation target,
              rotation <> 0%Z ->
              (forall r, rawXY (transformMark rotation r) = target r) ->
              forall env page result raws rotated,
                apiKeyConfigured env = true ->
                generateContent env page = Some (Text result) ->
                rotation_needed result = Some rotation ->
                marks result = Some raws ->
                canvasRotate env (Page.imageUrl page) rotation = Some rotated ->
                exists created corrected,
                  gradeExamPages env [page] = Resolved (created, [corrected]) /\
                  Page.imageUrl corrected = rotated /\
                  map markXY created = map target raws) as G.
    { intros rotation target Hr Ht env page result raws rotated K S R M C.
      destruct (rotated_page_coordinates env page result rotation raws rotated
                  K S R Hr M C) as (created & corrected & E & U & XY).
      exists created, corrected. split; [exact E |]. split; [exact U |].
      rewrite XY. apply map_ext. exact Ht. }
    split; [| split]; apply G; try discriminate;
      intros r; destruct r; reflexivity. }
  eexists _, _. vm_compute. repeat split.
Qed.

End ReconcilerFacts.

(* ===================================================================== *)
(** * Strings: equality and generated identifiers *)
(* ===================================================================== *)

Module JsStringFacts.

Lemma eqb_eq (a b : jsstring) : JsString.eqb a b = true <-> a = b.
Proof.
  revert b. induction a as [| c a IH]; intros [| d b]; simpl;
    try (split; [discriminate | discriminate]); [tauto |].
  rewrite andb_true_iff, N.eqb_eq, IH. split.
  - intros [-> ->]. reflexivity.
  - intros E. injection E as -> ->. auto.
Qed.

Lemma eqb_neq (a b : jsstring) : JsString.eqb a b = false <-> a <> b.
Proof.
  rewrite <- eqb_eq. destruct (JsString.eqb a b); split;
    congruence.
Qed.

(** A printed digit sequence determines its digits. *)
Lemma of_uint_inj (a b : Decimal.uint) :
  JsString.of_uint a = JsString.of_uint b -> a = b.
Proof.
  revert b.
  induction a; intros b H; destruct b; simpl in H;
    try discriminate H; try reflexivity;
    injection H as H; f_equal; auto.
Qed.

Lemma of_uint_no_hyphen (d : Decimal.uint) :
  ~ In JsString.hyphen (JsString.of_uint d).
Proof.
  unfold JsString.hyphen.
  induction d; simpl; intros H; try tauto;
    destruct H as [H | H]; try discriminate H; auto.
Qed.

(** Different integers print differently. *)
Lemma of_int_inj (a b : Z) : JsString.of_int a = JsString.of_int b -> a = b.
Proof.
  unfold JsString.of_int. intros H.
  rewrite <- (DecimalZ.of_to a), <- (DecimalZ.of_to b).
  destruct (Z.to_int a) as [da | da], (Z.to_int b) as [db | db].
  - now rewrite (of_uint_inj _ _ H).
  - exfalso. apply (of_uint_no_hyphen da). rewrite H. now left.
  - exfalso. apply (of_uint_no_hyphen db). rewrite <- H. now left.
  - injection H as H. now rewrite (of_uint_inj _ _ H).
Qed.

Lemma of_nat_no_hyphen (n : nat) :
  ~ In JsString.hyphen (JsString.of_int (Z.of_nat n)).
Proof.
  unfold JsString.of_int, Z.to_int.
  destruct (Z.of_nat n) eqn:E; try apply of_uint_no_hyphen. lia.
Qed.

(** The text behind the last hyphen of a string is determined by the
    string. *)
Lemma last_hyphen_inj (p q s t : jsstring) :
  ~ In JsString.hyphen s -> ~ In JsString.hyphen t ->
  p ++ JsString.hyphen :: s = q ++ JsString.hyphen :: t -> s = t.
Proof.
  revert q. induction p as [| c p IH]; intros q Hs Ht E.
  - destruct q as [| d q]; simpl in E.
    + now injection E.
    + injection E as <- E. exfalso. apply Hs. rewrite E.
      apply in_or_app. right. now left.
  - destruct q as [| d q]; simpl in E.
    + injection E as -> E. exfalso. apply Ht. rewrite <- E.
      apply in_or_app. right. now left.
    + injection E as _ E. now apply (IH q).
Qed.

End JsStringFacts.

(* ===================================================================== *)
(** * The interactive mark editor *)
(* ===================================================================== *)

Module EditorFacts.
Import Editor Notions Samples.

Lemma updateMark_no_match (updatedMark : Mark.t) (prev : list Mark.t) :
  (forall m, In m prev -> Mark.id m <> Mark.id updatedMark) ->
  updateMark updatedMark prev = prev.
Proof.
  unfold updateMark. induction prev as [| m prev IH]; intros H; simpl.
  - reflexivity.
  - rewrite (proj2 (JsStringFacts.eqb_neq _ _) (H m (or_introl eq_refl))).
    f_equal. apply IH. intros m' Hin. apply H. now right.
Qed.

Lemma updateMark_ids (updatedMark : Mark.t) (prev : list Mark.t) :
  map Mark.id (updateMark updatedMark prev) = map Mark.id prev.
Proof.
  unfold updateMark. rewrite map_map. apply map_ext. intros m.
  destruct (JsString.eqb (Mark.id m) (Mark.id updatedMark)) eqn:E.
  - symmetry. now apply JsStringFacts.eqb_eq.
  - reflexivity.
Qed.

Lemma updateMark_nth (updatedMark : Mark.t) (prev : list Mark.t) (i : nat) (m : Mark.t) :
  nth_error prev i = Some m ->
  nth_error (updateMark updatedMark prev) i
  = Some (if JsString.eqb (Mark.id m) (Mark.id updatedMark)
          then updatedMark else m).
Proof.
  intros H. unfold updateMark. now rewrite nth_error_map, H.
Qed.

Lemma updateMark_unique (updatedMark : Mark.t) (prev : list Mark.t) (i : nat) (m : Mark.t) :
  NoDup (map Mark.id prev) ->
  nth_error prev i = Some m -> Mark.id m = Mark.id updatedMark ->
  updateMark updatedMark prev = firstn i prev ++ updatedMark :: skipn (S i) prev.
Proof.
  revert i. induction prev as [| m0 prev IH]; intros i Hnd Hi Hid.
  - destruct i; discriminate Hi.
  - simpl in Hnd. inversion Hnd as [| ? ? Hnotin Hnd']; subst.
    destruct i as [| j]; simpl in Hi.
    + injection Hi as ->. simpl.
      rewrite (proj2 (JsStringFacts.eqb_eq _ _) Hid). f_equal.
      apply updateMark_no_match. intros m' Hin E. apply Hnotin.
      rewrite Hid, <- E. now apply in_map.
    + simpl. assert (Mark.id m0 <> Mark.id updatedMark) as Ne.
      { intros E. apply Hnotin. rewrite E, <- Hid.
        apply in_map. eapply nth_error_In, Hi. }
      rewrite (proj2 (JsStringFacts.eqb_neq _ _) Ne). f_equal.
      now apply IH.
Qed.

(** C8.  An update whose id matches no mark leaves the list exactly as
    it was.  Otherwise the list keeps its length and order: every mark
    with the id of the update is replaced by it and every other mark is
    unchanged; when ids are pairwise distinct that is exactly one
    position. *)
Theorem updateMark_replaces_by_id (updatedMark : Mark.t) (prev : list Mark.t) :
  ((forall m, In m prev -> Mark.id m <> Mark.id updatedMark) ->
     updateMark updatedMark prev = prev) /\
  length (updateMark updatedMark prev) = length prev /\
  (forall i m, nth_error prev i = Some m ->
     (Mark.id m = Mark.id updatedMark ->
        nth_error (updateMark updatedMark prev) i = Some updatedMark) /\
     (Mark.id m <> Mark.id updatedMark ->
        nth_error (updateMark updatedMark prev) i = Some m)) /\
  (forall i m, NoDup (map Mark.id prev) ->
     nth_error prev i = Some m -> Mark.id m = Mark.id updatedMark ->
     updateMark updatedMark prev
     = firstn i prev ++ updatedMark :: skipn (S i) prev).
Proof.
  split; [apply updateMark_no_match |].
  split; [unfold updateMark; apply length_map |].
  split.
  - intros i m Hi. rewrite (updateMark_nth _ _ _ _ Hi). split; intros E.
    + now rewrite (proj2 (JsStringFacts.eqb_eq _ _) E).
    + now rewrite (proj2 (JsStringFacts.eqb_neq _ _) E).
  - intros i m. apply updateMark_unique.
Qed.

(** ** Identifiers *)

Lemma hyphen_literal : js "-" = [JsString.hyphen].
Proof. reflexivity. Qed.

Lemma prefix_manual : js "manual-" = [109; 97; 110; 117; 97; 108; 45]%N.
Proof. reflexivity. Qed.

Lemma prefix_mark : js "mark-" = [109; 97; 114; 107; 45]%N.
Proof. reflexivity. Qed.

Lemma manual_is_not_service (a b : jsstring) :
  js "manual-" ++ a <> js "mark-" ++ b.
Proof. rewrite prefix_manual, prefix_mark. simpl. intros E. discriminate E. Qed.

Lemma manual_inj (s t : Z) :
  js "manual-" ++ JsString.of_int s = js "manual-" ++ JsString.of_int t -> s = t.
Proof. intros E. apply app_inv_head in E. now apply JsStringFacts.of_int_inj. Qed.

Section Grading.
Import Reconciler.
Variable env : Env.
Local Abbreviation drawn := (Notions.drawn env).

Lemma pushMarks_drawn (page : Page.t) (i : nat) (language : jsstring)
  (raws : list Raw.t) :
  forall acc n, drawn acc n ->
    drawn (fst (pushMarks env page i language raws acc n))
          (snd (pushMarks env page i language raws acc n)).
Proof.
  induction raws as [| r raws IH]; intros acc n D; simpl; [exact D |].
  apply IH. destruct D as [Len Ids]. split.
  - rewrite length_app, Len. simpl. lia.
  - intros j m Hj.
    destruct (Nat.lt_ge_cases j (length acc)) as [Lt | Ge].
    + rewrite nth_error_app1 in Hj by exact Lt. now apply Ids.
    + rewrite nth_error_app2 in Hj by exact Ge.
      destruct (j - length acc)%nat as [| k] eqn:K; simpl in Hj.
      * injection Hj as <-. exists (Page.id page).
        replace j with n by lia. reflexivity.
      * destruct k; discriminate Hj.
Qed.

Lemma gradePage_drawn (i : nat) (page : Page.t) (st st' : State) :
  gradePage env i page st = Resolved st' ->
  drawn (allMarks st) (draws st) -> drawn (allMarks st') (draws st').
Proof.
  unfold gradePage. intros G D.
  destruct (generateContent env page) as [[| result] |]; try discriminate G.
  - injection G as <-. exact D.
  - set (language := JsString.or_else (detected_language result) (js "en")) in G.
    set (rotation := match rotation_needed result with
                     | Some r => r | None => 0%Z end) in G.
    set (raws := match marks result with Some l => l | None => [] end) in G.
    destruct (negb (rotation =? 0)%Z).
    + destruct (rotateImage env (Page.imageUrl page) rotation);
        try discriminate G.
      cbn [bind] in G.
      pose proof (pushMarks_drawn page i language
                    (map (transformMark rotation) raws) _ _ D) as P.
      destruct (pushMarks env page i language _ (allMarks st) (draws st)).
      injection G as <-. exact P.
    + cbn [bind] in G.
      pose proof (pushMarks_drawn page i language raws _ _ D) as P.
      destruct (pushMarks env page i language raws (allMarks st) (draws st)).
      injection G as <-. exact P.
Qed.

Lemma gradeLoop_drawn (pages : list Page.t) :
  forall i st st',
    gradeLoop env i pages st = Resolved st' ->
    drawn (allMarks st) (draws st) -> drawn (allMarks st') (draws st').
Proof.
  induction pages as [| page pages IH]; intros i st st' G D; simpl in G.
  - injection G as <-. exact D.
  - destruct (gradePage env i page st) as [st1 |] eqn:G1; try discriminate G.
    cbn [bind] in G. eapply IH; [exact G |]. eapply gradePage_drawn; eauto.
Qed.

Lemma gradeExamPages_drawn (pages : list Page.t) (marks : list Mark.t)
  (processed : list Page.t) :
  gradeExamPages env pages = Resolved (marks, processed) ->
  drawn marks (length marks).
Proof.
  unfold gradeExamPages. intros G.
  destruct (negb (apiKeyConfigured env)); try discriminate G.
  destruct (gradeLoop env 0 pages _) as [st |] eqn:L; try discriminate G.
  cbn [bind] in G. injection G as <- <-.
  assert (drawn [] 0) as D0.
  { split; [reflexivity |]. intros [| j] m H; discriminate H. }
  destruct (gradeLoop_drawn _ _ _ _ L D0) as [_ Ids].
  split; [reflexivity | exact Ids].
Qed.

Lemma drawn_NoDup (marks : list Mark.t) (n : nat) :
  drawn marks n -> fairDraws env n -> NoDup (map Mark.id marks).
Proof.
  intros [Len Ids] [Inj NoHyphen].
  apply NoDup_nth_error. intros i j Hi E.
  rewrite length_map in Hi.
  rewrite !nth_error_map in E.
  destruct (nth_error marks i) as [mi |] eqn:Ei.
  2:{ apply nth_error_None in Ei. lia. }
  destruct (nth_error marks j) as [mj |] eqn:Ej; try discriminate E.
  assert (j < length marks)%nat as Hj
    by (apply nth_error_Some; rewrite Ej; discriminate).
  injection E as E.
  destruct (Ids _ _ Ei) as [pi Pi]. destruct (Ids _ _ Ej) as [pj Pj].
  rewrite Pi, Pj in E. apply app_inv_head in E.
  rewrite hyphen_literal in E. cbn [app] in E.
  rewrite Len in Hi, Hj.
  apply Inj; [exact Hi | exact Hj |].
  eapply JsStringFacts.last_hyphen_inj; [| | exact E]; now apply NoHyphen.
Qed.

Lemma drawn_prefix (marks : list Mark.t) (n : nat) (m : Mark.t) :
  drawn marks n -> In m marks -> exists rest, Mark.id m = js "mark-" ++ rest.
Proof.
  intros [_ Ids] Hin. apply In_nth_error in Hin. destruct Hin as [j Hj].
  destruct (Ids _ _ Hj) as [pid E]. eauto.
Qed.

End Grading.

(** ** Sessions *)

Lemma addMark_wellNamed (used : list Z) (marks : list Mark.t)
  (now : Z) (x y : number) (pageIndex : nat) :
  wellNamed used marks -> ~ In now used ->
  wellNamed (now :: used) (addMark now x y pageIndex marks).
Proof.
  intros [Nd Names] Fresh. unfold addMark. split.
  - rewrite map_app. cbn [map Mark.id].
    apply NoDup_app; repeat split.
    + exact Nd.
    + constructor; [intros [] | constructor].
    + intros i Hi [E | []]. apply in_map_iff in Hi.
      destruct Hi as (m & Em & Hin). subst i.
      destruct (Names m Hin) as [(t & Ht & Et) | (rest & Er)].
      * rewrite Et in E. apply manual_inj in E. now subst t.
      * rewrite Er in E. now apply manual_is_not_service in E.
  - intros m Hin. apply in_app_or in Hin. destruct Hin as [Hin | [<- | []]].
    + destruct (Names m Hin) as [(t & Ht & Et) | R]; [left | right; exact R].
      exists t. split; [now right | exact Et].
    + left. exists now. split; [now left | reflexivity].
Qed.

Lemma updateMark_wellNamed (used : list Z) (marks : list Mark.t) (u : Mark.t) :
  wellNamed used marks -> wellNamed used (updateMark u marks).
Proof.
  intros [Nd Names]. split; [now rewrite updateMark_ids |].
  intros m Hin. unfold updateMark in Hin. apply in_map_iff in Hin.
  destruct Hin as (m0 & E & Hin0).
  destruct (JsString.eqb (Mark.id m0) (Mark.id u)) eqn:B.
  - apply JsStringFacts.eqb_eq in B. subst m. rewrite <- B. now apply Names.
  - subst m. now apply Names.
Qed.

Lemma removeMark_ids (markId : jsstring) (marks : list Mark.t) :
  NoDup (map Mark.id marks) -> NoDup (map Mark.id (removeMark markId marks)).
Proof.
  unfold removeMark. intros Nd.
  induction marks as [| m marks IH]; cbn [filter map] in *; [exact Nd |].
  inversion Nd as [| ? ? Fresh Nd']; subst.
  destruct (negb (JsString.eqb (Mark.id m) markId)); [| now apply IH].
  cbn [map]. constructor; [| now apply IH].
  intros Hin. apply Fresh. apply in_map_iff in Hin.
  destruct Hin as (m' & E & Hin). rewrite <- E. apply in_map.
  apply filter_In in Hin. tauto.
Qed.

Lemma removeMark_wellNamed (used : list Z) (marks : list Mark.t) (markId : jsstring) :
  wellNamed used marks -> wellNamed used (removeMark markId marks).
Proof.
  intros [Nd Names]. split; [now apply removeMark_ids |].
  intros m Hin. apply filter_In in Hin. now apply Names.
Qed.

Lemma graded_wellNamed (used : list Z) (env : Reconciler.Env)
  (pages processed : list Page.t) (aiMarks : list Mark.t) :
  fairDraws env (drawCount env pages) ->
  Reconciler.gradeExamPages env pages = Resolved (aiMarks, processed) ->
  wellNamed used aiMarks.
Proof.
  intros Fair G. pose proof (gradeExamPages_drawn env _ _ _ G) as D.
  unfold drawCount in Fair. rewrite G in Fair. split.
  - eapply drawn_NoDup; eauto.
  - intros m Hin. right. eapply drawn_prefix; eauto.
Qed.

Lemma run_wellNamed (events : list Event) :
  forall used marks,
    wellNamed used marks ->
    NoDup (clockReadings events) ->
    (forall t, In t (clockReadings events) -> ~ In t used) ->
    fairSession events ->
    NoDup (map Mark.id (fold_left step events marks)).
Proof.
  induction events as [| e events IH]; intros used marks W Nd Fresh Fair.
  - exact (proj1 W).
  - assert (fairSession events) as Fair'.
    { intros env pages Hin. apply (Fair env pages). now right. }
    destruct e as [env pages | now x y pageIndex | u | markId |];
      cbn [fold_left step clockReadings] in *.
    + destruct (Reconciler.gradeExamPages env pages) as [[aiMarks processed] |] eqn:G.
      * apply (IH used); auto.
        eapply graded_wellNamed; [| exact G].
        apply (Fair env pages). now left.
      * now apply (IH used).
    + inversion Nd as [| ? ? Hnotin Nd']; subst.
      apply (IH (now :: used)); auto.
      * apply addMark_wellNamed; [exact W |]. apply Fresh. now left.
      * intros t Ht [E | Hu]; [subst t; contradiction |].
        apply (Fresh t); [now right | exact Hu].
    + apply (IH used); auto. now apply updateMark_wellNamed.
    + apply (IH used); auto. now apply removeMark_wellNamed.
    + apply (IH used); auto. split; [constructor | intros m []].
Qed.

(** C9, amended.  The ids of a session are pairwise distinct provided
    the clock ([Date.now()]) gave a different reading at each interactive
    add, and the random suffixes drawn during a grading call were pairwise
    different strings of base-36 digits. *)
Theorem ids_distinct_when_sources_distinct (events : list Event) :
  NoDup (clockReadings events) ->
  fairSession events ->
  NoDup (map Mark.id (run events)).
Proof.
  intros Nd Fair. unfold run.
  apply (run_wellNamed events [] []); auto.
  split; [constructor | intros m []].
Qed.

(** C9 as stated fails: two adds within the same millisecond get the
    same id. *)
Lemma same_millisecond_same_id :
  let marks := run [MarkAdded 1700000000000 10 10 0;
                    MarkAdded 1700000000000 50 50 0] in
  map Mark.id marks
    = [js "manual-1700000000000"; js "manual-1700000000000"] /\
  ~ NoDup (map Mark.id marks).
Proof.
  split; [reflexivity |].
  intros Nd. inversion Nd as [| ? ? Hnotin _]; subst.
  apply Hnotin. now left.
Qed.

Lemma decimal_draws_fair (rotation : Z) (language : string) (m : Raw.t) (n : nat) :
  fairDraws (oneMarkService rotation language m) n.
Proof.
  split; cbn [Reconciler.randomSuffix oneMarkService].
  - intros i j _ _ E. apply JsStringFacts.of_int_inj in E. lia.
  - intros i _. apply JsStringFacts.of_nat_no_hyphen.
Qed.

Lemma ids_distinct_witness :
  NoDup (map Mark.id
    (run [FilesGraded
            (oneMarkService 90 "en"
               (Raw.mk 10 20 correct None None None None))
            [scan; scan];
          MarkAdded 1700000000000 10 10 0;
          MarkAdded 1700000000001 50 50 0])).
Proof.
  apply ids_distinct_when_sources_distinct.
  - cbn [clockReadings]. repeat constructor; simpl; intuition discriminate.
  - intros env pages [E | [E | [E | []]]]; try discriminate E.
    injection E as <- _. apply decimal_draws_fair.
Defined.

End EditorFacts.

(* ===================================================================== *)
(** * Sorting by a numeric key *)
(* ===================================================================== *)

Module SortFacts.
Import JsArray Notions.
Local Open Scope Q_scope.

Section ByKey.
Context {A : Type}.
Variable key : A -> number.
Local Abbreviation byKey := (Notions.byKey key).
Local Abbreviation keyLe := (Notions.keyLe key).

Lemma insert_perm (a : A) (l : list A) :
  Permutation (insert byKey a l) (a :: l).
Proof.
  induction l as [| b l IH]; simpl; [reflexivity |].
  destruct (Double.gt (byKey a b) 0); [| reflexivity].
  rewrite IH. apply perm_swap.
Qed.

Lemma sort_perm (l : list A) : Permutation (sort byKey l) l.
Proof.
  induction l as [| a l IH]; simpl; [reflexivity |].
  unfold sort in IH. rewrite insert_perm. now constructor.
Qed.

(** On binary64 keys the comparator is positive exactly when the first
    key is the larger one. *)
Lemma gt_byKey (a b : A) :
  Double.format (key a) -> Double.format (key b) ->
  (Double.gt (byKey a b) 0 = true <-> key b < key a).
Proof.
  intros Fa Fb. unfold Double.gt, Notions.byKey.
  rewrite negb_true_iff, <- not_true_iff_false, Qle_bool_iff. split.
  - intros Pos. destruct (Qlt_le_dec (key b) (key a)) as [L | G]; [exact L |].
    exfalso. apply Pos. destruct (Qle_lt_or_eq _ _ G) as [L | E].
    + apply Qlt_le_weak. now apply DoubleFacts.sub_neg.
    + rewrite (DoubleFacts.sub_zero _ _ E). apply Qle_refl.
  - intros L Le. pose proof (DoubleFacts.sub_pos _ _ Fa Fb L). lra.
Qed.

Lemma insert_sorted (a : A) (l : list A) :
  Double.format (key a) -> Forall (fun b => Double.format (key b)) l ->
  StronglySorted keyLe l -> StronglySorted keyLe (insert byKey a l).
Proof.
  intros Fa Fl Sl. induction Sl as [| b l Sl IH Hb]; simpl.
  - repeat constructor.
  - inversion Fl as [| ? ? Fb Fl']; subst.
    destruct (Double.gt (byKey a b) 0) eqn:G.
    + apply gt_byKey in G; [| assumption | assumption].
      constructor; [now apply IH |].
      rewrite insert_perm. constructor; [| exact Hb].
      unfold Notions.keyLe. lra.
    + assert (key a <= key b) as Le.
      { destruct (Qlt_le_dec (key b) (key a)) as [L | Le]; [| exact Le].
        apply gt_byKey in L; [congruence | assumption | assumption]. }
      constructor; [now constructor |].
      constructor; [exact Le |].
      eapply Forall_impl; [| exact Hb]. unfold Notions.keyLe. intros c Hc. lra.
Qed.

Lemma sort_sorted (l : list A) :
  Forall (fun b => Double.format (key b)) l ->
  StronglySorted keyLe (sort byKey l).
Proof.
  induction l as [| a l IH]; intros F; simpl; [constructor |].
  inversion F as [| ? ? Fa Fl]; subst.
  apply insert_sorted; [exact Fa | | now apply IH].
  fold (sort byKey l). now rewrite sort_perm.
Qed.

(** Insertion never moves an element past one with an equal key. *)
Lemma insert_stable (v : number) (a : A) (l : list A) :
  Double.format (key a) -> Forall (fun b => Double.format (key b)) l ->
  filter (fun m => Qeq_bool (key m) v) (insert byKey a l)
  = filter (fun m => Qeq_bool (key m) v) (a :: l).
Proof.
  intros Fa Fl. induction Fl as [| b l Fb Fl IH]; [reflexivity |].
  cbn [insert]. destruct (Double.gt (byKey a b) 0) eqn:G; [| reflexivity].
  apply gt_byKey in G; [| assumption | assumption].
  cbn [filter] in *. rewrite IH.
  destruct (Qeq_bool (key a) v) eqn:Ea, (Qeq_bool (key b) v) eqn:Eb;
    try reflexivity.
  apply Qeq_bool_iff in Ea, Eb. lra.
Qed.

Lemma sort_stable (v : number) (l : list A) :
  Forall (fun b => Double.format (key b)) l ->
  filter (fun m => Qeq_bool (key m) v) (sort byKey l)
  = filter (fun m => Qeq_bool (key m) v) l.
Proof.
  induction l as [| a l IH]; intros F; [reflexivity |].
  inversion F as [| ? ? Fa Fl]; subst.
  cbn [sort fold_right]. fold (sort byKey l).
  rewrite insert_stable; [| exact Fa | now rewrite sort_perm].
  cbn [filter]. now rewrite IH.
Qed.

End ByKey.

End SortFacts.

(* ===================================================================== *)
(** * The report compositor *)
(* ===================================================================== *)

Module CompositorFacts.
Import Compositor Notions Samples.
Local Open Scope Q_scope.

(** ** Order of the marks in the sidebar *)

Lemma doubles_format (marks : list Mark.t) :
  Forall (fun m => Double.is_double (Mark.y m) = true) marks ->
  Forall (fun m => Double.format (Mark.y m)) marks.
Proof.
  apply Forall_impl. intros m. apply DoubleFacts.is_double_format.
Qed.

(** C4.  The marks the compositor lays out for page [i] are the marks
    of that page, in non-decreasing order of y, and marks with equal y
    keep the order in which they arrived.  (Coordinates are JavaScript
    numbers, that is binary64 values.) *)
Theorem pageMarks_sorted_stable (marks : list Mark.t) (i : nat) :
  Forall (fun m => Double.is_double (Mark.y m) = true) marks ->
  let onPage := Editor.marksOfPage i marks in
  let laidOut := pageMarks marks i in
  Permutation laidOut onPage /\
  StronglySorted (fun a b => Mark.y a <= Mark.y b) laidOut /\
  forall v : number,
    filter (fun m => Qeq_bool (Mark.y m) v) laidOut
    = filter (fun m => Qeq_bool (Mark.y m) v) onPage.
Proof.
  intros D onPage laidOut.
  assert (Forall (fun m => Double.format (Mark.y m)) onPage) as F.
  { apply doubles_format in D. rewrite Forall_forall in *.
    intros m Hin. apply D. unfold onPage, Editor.marksOfPage in Hin.
    apply filter_In in Hin. tauto. }
  split; [apply (SortFacts.sort_perm Mark.y) |].
  split; [apply (SortFacts.sort_sorted Mark.y), F |].
  intros v. apply (SortFacts.sort_stable Mark.y), F.
Qed.

Lemma pageMarks_sorted_witness :
  StronglySorted (fun a b => Mark.y a <= Mark.y b) (pageMarks fourMarks 0).
Proof.
  refine (proj1 (proj2 (pageMarks_sorted_stable fourMarks 0 _))).
  repeat (apply Forall_cons; [vm_compute; reflexivity |]). apply Forall_nil.
Defined.

(** Marks at y = 50, 10, 90, 10: the two marks at 10 come first, in
    arrival order. *)
Example four_marks_order :
  map Mark.id (pageMarks fourMarks 0) = [js "b"; js "d"; js "a"; js "c"] /\
  map Mark.y (pageMarks fourMarks 0) = [10; 10; 50; 90].
Proof. split; vm_compute; reflexivity. Qed.

(** ** Wrapping *)

Section Wrapping.
Variable measure : jsstring -> number.
Variables x maxWidth lineHeight : number.

(** One run of the loop: the lines it flushes are not empty, there is at
    most one per character read (none for the first character of the
    text), and flushed lines and pending line spell the characters read. *)
Lemma wrapLoop_lines (characters : jsstring) :
  forall (i : nat) (line : jsstring) (currentY : number) (drawn : list Line),
    ((0 < i)%nat -> line <> []) ->
    let r := wrapLoop measure characters i x maxWidth lineHeight
               line currentY drawn in
    exists flushed,
      snd r = drawn ++ flushed /\
      Forall nonEmpty flushed /\
      (length flushed + (if (i =? 0)%nat then Nat.min 1 (length characters) else 0)
       <= length characters)%nat /\
      (line <> [] \/ characters <> [] -> fst (fst r) <> []) /\
      concat (map text flushed) ++ fst (fst r) = line ++ characters.
Proof.
  induction characters as [| c rest IH]; intros i line currentY drawn Hline r.
  - exists []. subst r. cbn [wrapLoop fst snd length map concat app].
    rewrite !app_nil_r. repeat split; auto.
    + destruct (i =? 0)%nat; simpl; lia.
    + intros [H | H]; [exact H | now contradiction H].
  - subst r. cbn [wrapLoop].
    destruct (Double.gt (measure (line ++ [c])) maxWidth && (0 <? i)%nat) eqn:Cond.
    + (* the pending line is flushed; [c] starts the next one *)
      apply andb_true_iff in Cond. destruct Cond as [_ Pos].
      apply Nat.ltb_lt in Pos.
      destruct (IH (S i) [c] (Double.add currentY lineHeight)
                  (drawn ++ [{| text := line; at_x := x; at_y := currentY |}])
                  ltac:(discriminate))
        as (flushed & D & F & L & N & C).
      exists ({| text := line; at_x := x; at_y := currentY |} :: flushed).
      rewrite D, <- app_assoc. split; [reflexivity |].
      split; [constructor; [exact (Hline Pos) | exact F] |].
      split.
      { replace (i =? 0)%nat with false by (symmetry; apply Nat.eqb_neq; lia).
        cbn [Nat.eqb] in L. simpl in *. lia. }
      split; [intros _; apply N; now left |].
      cbn [map concat text]. rewrite <- app_assoc, C. reflexivity.
    + (* [c] joins the pending line *)
      destruct (IH (S i) (line ++ [c]) currentY drawn)
        as (flushed & D & F & L & N & C).
      { intros _ E. now apply app_eq_nil in E. }
      exists flushed. split; [exact D |]. split; [exact F |].
      split.
      { cbn [Nat.eqb] in L. destruct (i =? 0)%nat; simpl in *; lia. }
      split.
      { intros _. apply N. left. intros E. now apply app_eq_nil in E. }
      rewrite C, <- app_assoc. reflexivity.
Qed.

(** The cursor after the loop is the input cursor or a binary64 value at
    least one (rounded) line height above it. *)
Lemma wrapLoop_cursor (y : number) (characters : jsstring) :
  0 <= lineHeight ->
  forall (i : nat) (line : jsstring) (currentY : number) (drawn : list Line),
    currentY = y \/
      (Double.format currentY /\ Double.add y lineHeight <= currentY) ->
    let currentY' :=
      snd (fst (wrapLoop measure characters i x maxWidth lineHeight
                  line currentY drawn)) in
    currentY' = y \/
      (Double.format currentY' /\ Double.add y lineHeight <= currentY').
Proof.
  intros Hlh.
  induction characters as [| c rest IH]; intros i line currentY drawn P;
    cbn [wrapLoop]; [exact P |].
  destruct (Double.gt (measure (line ++ [c])) maxWidth && (0 <? i)%nat).
  - apply IH. right. split; [unfold Double.add; auto with double |].
    destruct P as [-> | [F Le]]; [apply Qle_refl |].
    eapply Qle_trans; [exact Le |].
    apply DoubleFacts.round_ge; [exact F | lra].
  - apply IH. exact P.
Qed.

End Wrapping.

(** C10.  Whatever the text, the metrics and the maximum width (even
    one narrower than any character), a line break never flushes an empty
    line and there are at most as many breaks as characters; for a
    non-empty text this also holds of all lines drawn, the last one
    included.  The lines drawn spell the text. *)
Theorem wrapText_lines_nonempty
  (measure : jsstring -> number) (str : jsstring) (x y maxWidth lineHeight : number) :
  let broken := breaks measure str x y maxWidth lineHeight in
  let lines := fst (wrapText measure str x y maxWidth lineHeight) in
  Forall nonEmpty broken /\
  (length broken <= length str)%nat /\
  (str <> [] -> Forall nonEmpty lines /\ (length lines <= length str)%nat) /\
  concat (map text lines) = str.
Proof.
  intros broken lines. subst broken lines. unfold breaks, wrapText.
  destruct (wrapLoop_lines measure x maxWidth lineHeight str 0 [] y []
              ltac:(intros H; inversion H))
    as (flushed & D & F & L & N & C).
  destruct (wrapLoop measure str 0 x maxWidth lineHeight [] y [])
    as [[line currentY] drawn].
  cbn [fst snd app Nat.eqb] in *. subst drawn.
  split; [exact F |]. split; [lia |]. split.
  - intros Hs. split.
    + apply Forall_app. split; [exact F |].
      constructor; [apply N; now right | constructor].
    + rewrite length_app. destruct str; [now contradiction Hs |].
      simpl in *. lia.
  - rewrite map_app, concat_app. cbn [map concat text].
    now rewrite app_nil_r.
Qed.

(** A width no character fits in: one character per line. *)
Example narrower_than_a_character :
  map text (fst (wrapText tenPerUnit (js "abc") 0 0 1 12))
  = [js "a"; js "b"; js "c"] /\
  breaks tenPerUnit [] 0 0 1 12 = [].
Proof. split; vm_compute; reflexivity. Qed.

(** C5, amended.  For a non-empty text and a positive maximum width the
    routine returns (it is a structural recursion on the characters), and
    the cursor it returns is strictly greater than the input cursor
    provided the line height is positive and adding it to the input
    cursor yields a greater JavaScript number. *)
Theorem wrapText_advances
  (measure : jsstring -> number) (str : jsstring) (x y maxWidth lineHeight : number) :
  str <> [] -> 0 < maxWidth ->
  0 < lineHeight -> y < Double.add y lineHeight ->
  exists lines y',
    wrapText measure str x y maxWidth lineHeight = (lines, y') /\ y < y'.
Proof.
  intros _ _ Hlh Hadv. unfold wrapText.
  pose proof (wrapLoop_cursor measure x maxWidth lineHeight y str
                (Qlt_le_weak _ _ Hlh) 0 [] y [] (or_introl eq_refl)) as P.
  destruct (wrapLoop measure str 0 x maxWidth lineHeight [] y [])
    as [[line currentY] drawn].
  cbn [fst snd] in P. eexists _, _. split; [reflexivity |].
  destruct P as [-> | [F Le]]; [exact Hadv |].
  eapply Qlt_le_trans; [exact Hadv |].
  eapply Qle_trans; [exact Le |].
  apply DoubleFacts.round_ge; [exact F | lra].
Qed.

Lemma wrapText_advances_witness :
  exists lines y',
    wrapText tenPerUnit (js "hello world") 40 120 35 (45 # 2) = (lines, y') /\
    120 < y'.
Proof.
  apply wrapText_advances.
  - discriminate.
  - reflexivity.
  - reflexivity.
  - vm_compute. reflexivity.
Defined.

(** C5 as stated fails: with a line height of 0 the cursor does not
    move, and a line height below the last place of the cursor is
    absorbed by the addition. *)
Lemma wrapText_may_not_advance :
  (js "a" <> [] /\ 0 < 100 /\
   ~ 0 < snd (wrapText tenPerUnit (js "a") 0 0 100 0)) /\
  (js "a" <> [] /\ 0 < 100 /\
   ~ inject_Z (2 ^ 53) < snd (wrapText tenPerUnit (js "a") 0 (inject_Z (2 ^ 53)) 100 1)).
Proof.
  split; (split; [discriminate | split; [reflexivity |]]);
    vm_compute; intros H; discriminate H.
Qed.

(** A line height of 0 is what [generateGradedPDF] computes for an image
    less than 67 pixels wide. *)
Example narrow_image_line_height : lineHeight 66 = 0 /\ lineHeight 67 = 3 # 2.
Proof. split; vm_compute; reflexivity. Qed.

(** ** Size of the composited surface *)

Lemma Qred_inject_Z (z : Z) : Qred (inject_Z z) = inject_Z z.
Proof.
  unfold Qred, inject_Z.
  pose proof (Z.ggcd_gcd z 1) as G.
  pose proof (Z.ggcd_correct_divisors z 1) as D.
  destruct (Z.ggcd z 1) as [g [a b]]. cbn [fst snd] in *.
  rewrite Z.gcd_1_r in G. subst g. destruct D as [Da Db].
  replace a with z by lia. replace b with 1%Z by lia. reflexivity.
Qed.

Lemma round_is_int (q : Q) (z : Z) :
  Double.round q == inject_Z z -> Double.round q = inject_Z z.
Proof.
  intros E. rewrite <- (Qred_inject_Z z). unfold Double.round in *.
  apply Qred_complete. now rewrite Qred_correct in E.
Qed.

Lemma lit_045 :
  Double.lit (45 # 100) = 8106479329266893 # 18014398509481984.
Proof. vm_compute. reflexivity. Qed.

(** For the widths an image can have the rounded product [w * 0.45] has
    the integer part of the exact one. *)
Lemma sidebarWidth_floor (w : Z) :
  (0 <= w < 2 ^ 32)%Z -> sidebarWidth (inject_Z w) = inject_Z (9 * w / 20).
Proof.
  intros Hw. change (2 ^ 32)%Z with 4294967296%Z in Hw.
  unfold sidebarWidth, Double.floor, Double.mul. rewrite lit_045. f_equal.
  set (k := (9 * w / 20)%Z).
  assert (20 * k <= 9 * w <= 20 * k + 19)%Z as [Klo Khi].
  { pose proof (Z.div_mod (9 * w) 20 ltac:(lia)).
    pose proof (Z.mod_pos_bound (9 * w) 20 ltac:(lia)). unfold k. lia. }
  assert (0 <= k < 2 ^ 31)%Z as Kr
    by (change (2 ^ 31)%Z with 2147483648%Z; lia).
  change (2 ^ 31)%Z with 2147483648%Z in Kr.
  rewrite Zle_Qle, !inject_Z_mult in Klo.
  rewrite Zle_Qle, inject_Z_plus, !inject_Z_mult in Khi.
  destruct Hw as [W0 W1]. rewrite Zle_Qle in W0. rewrite Zlt_Qlt in W1.
  change (inject_Z 20) with 20 in *. change (inject_Z 9) with 9 in *.
  change (inject_Z 19) with 19 in *. change (inject_Z 0) with 0 in *.
  change (inject_Z 4294967296) with 4294967296 in *.
  set (W := inject_Z w) in *. set (K := inject_Z k) in *.
  apply DoubleFacts.Qfloor_unique.
  - apply DoubleFacts.round_ge.
    + apply DoubleFacts.format_int.
      change (2 ^ 53)%Z with 9007199254740992%Z. lia.
    + fold K. lra.
  - apply Qle_lt_trans with (K + 1 - (1 # 1024)).
    + apply DoubleFacts.round_le; [| lra].
      exists (1024 * (k + 1) - 1)%Z, 1064%Z.
      split; [lia |].
      split; [change (2 ^ 53)%Z with 9007199254740992%Z; lia |].
      assert (inject_Z Double.scale == 1024 * inject_Z (2 ^ 1064)) as S
        by (vm_compute; reflexivity).
      rewrite S, inject_Z_mult. unfold Z.sub.
      rewrite inject_Z_plus, inject_Z_mult, inject_Z_plus. fold K.
      set (P := inject_Z (2 ^ 1064)).
      change (inject_Z 1024) with 1024. change (inject_Z 1) with 1.
      change (inject_Z (- (1))) with (- (1)). field.
    + rewrite inject_Z_plus. fold K. change (inject_Z 1) with 1. lra.
Qed.

Lemma totalWidth_floor (w : Z) :
  (0 <= w < 2 ^ 32)%Z ->
  totalWidth (inject_Z w) = inject_Z (w + 9 * w / 20).
Proof.
  intros Hw. unfold totalWidth, Double.add.
  rewrite (sidebarWidth_floor w Hw), <- inject_Z_plus.
  apply round_is_int. apply DoubleFacts.round_int.
  change (2 ^ 32)%Z with 4294967296%Z in Hw.
  change (2 ^ 53)%Z with 9007199254740992%Z.
  pose proof (Z.div_mod (9 * w) 20 ltac:(lia)).
  pose proof (Z.mod_pos_bound (9 * w) 20 ltac:(lia)). lia.
Qed.

Lemma fitsPage_width (w h : Z) :
  Checks.fitsPage w h -> (0 <= w < 2 ^ 32)%Z.
Proof.
  unfold Checks.fitsPage, Checks.pageLimit. intros (W & _ & T).
  pose proof (Z.div_mod (9 * w) 20 ltac:(lia)).
  pose proof (Z.mod_pos_bound (9 * w) 20 ltac:(lia)).
  change (2 ^ 32)%Z with 4294967296%Z. lia.
Qed.

(** C3, amended.  The surface composited for a page whose image is [w]
    by [h] pixels is [w + floor (0.45 * w)] wide and [h] high: the sidebar
    width is the product rounded down to a whole pixel.  For a one-page
    input whose image loads and whose canvas yields a drawing context the
    document has exactly one page, of that size.  (The image has a
    positive size and its surface stays within the largest page the PDF
    library lays out, 19200 pixels a side.) *)
Theorem one_page_document_size
  (env : Env) (page : Page.t) (marks : list Mark.t) (w h : Z) :
  loadImage env (Page.imageUrl page) = Some (w, h) ->
  getContext env 0 = true ->
  Checks.fitsPage w h ->
  (forall laidOut,
     let surface := renderPage env page (inject_Z w) (inject_Z h) laidOut in
     width surface = inject_Z (w + 9 * w / 20) /\
     height surface = inject_Z h) /\
  exists sheet,
    generateGradedPDF env [page] marks = Resolved [sheet] /\
    page_width sheet = inject_Z (w + 9 * w / 20) /\
    page_height sheet = inject_Z h /\
    picture sheet
    = renderPage env page (inject_Z w) (inject_Z h) (pageMarks marks 0).
Proof.
  intros Load Ctx Fit.
  assert (0 <= w < 2 ^ 32)%Z as Hw by exact (fitsPage_width w h Fit).
  split.
  - intros laidOut surface. subst surface. unfold renderPage.
    cbn [width height]. split; [apply totalWidth_floor, Hw | reflexivity].
  - unfold generateGradedPDF. cbn [assemble]. rewrite Load, Ctx.
    cbn [negb app]. eexists. split; [reflexivity |].
    cbn [page_width page_height picture].
    split; [apply totalWidth_floor, Hw |]. split; reflexivity.
Qed.

Lemma one_page_document_size_witness :
  exists sheet,
    generateGradedPDF (browser (101, 50)%Z true) [scan] fourMarks
      = Resolved [sheet] /\
    page_width sheet = inject_Z 146 /\
    page_height sheet = inject_Z 50 /\
    picture sheet
    = renderPage (browser (101, 50)%Z true) scan
        (inject_Z 101) (inject_Z 50) (pageMarks fourMarks 0).
Proof.
  refine (proj2 (one_page_document_size
                   (browser (101, 50)%Z true) scan fourMarks 101 50 _ _ _)).
  - reflexivity.
  - reflexivity.
  - unfold Checks.fitsPage, Checks.pageLimit.
    repeat split; vm_compute; first [reflexivity | discriminate].
Defined.

(** C3 as stated fails: an image 101 pixels wide gets a surface of 146
    pixels, not 101 + 0.45 * 101 = 146.45 (in exact or in JavaScript
    arithmetic); and without a drawing context the one-page input yields
    an empty document. *)
Lemma sidebar_is_whole_pixels :
  (exists sheet,
     generateGradedPDF (browser (101, 50)%Z true) [scan] [] = Resolved [sheet] /\
     page_width sheet = 146 /\
     ~ page_width sheet == 101 + (45 # 100) * 101 /\
     ~ page_width sheet
       == Double.add 101 (Double.mul (Double.lit (45 # 100)) 101)) /\
  generateGradedPDF (browser (101, 50)%Z false) [scan] [] = Resolved [].
Proof.
  split; [| reflexivity].
  eexists. split; [reflexivity |].
  cbn [page_width]. split; [vm_compute; reflexivity |].
  split; vm_compute; intros H; discriminate H.
Qed.

(** ** Failures at the page level *)

Lemma assemble_rejects (env : Env) (marks : list Mark.t) (pages : list Page.t) :
  forall (i : nat) (pdf : list PdfPage),
    Exists (fun page => ~ loads env page) pages ->
    exists k failing,
      assemble env i pages marks pdf = Rejected (ImageLoadError (i + k)) /\
      nth_error pages k = Some failing /\ ~ loads env failing /\
      forall j earlier,
        (j < k)%nat -> nth_error pages j = Some earlier -> loads env earlier.
Proof.
  induction pages as [| page rest IH]; intros i pdf Hex.
  - inversion Hex.
  - cbn [assemble].
    destruct (loadImage env (Page.imageUrl page)) as [[w h] |] eqn:L.
    + assert (loads env page) as Lp by (unfold loads; now rewrite L).
      assert (Exists (fun page => ~ loads env page) rest) as Hrest.
      { inversion Hex as [? ? Hhere | ? ? Hrest]; subst; [| exact Hrest].
        now contradiction Hhere. }
      destruct (negb (getContext env i));
        match goal with
        | |- context [assemble env (S i) rest marks ?p] =>
          destruct (IH (S i) p Hrest) as (k & failing & E & N & F & Before)
        end;
        exists (S k), failing; rewrite E;
        (split; [do 2 f_equal; lia |]);
        (split; [exact N |]); (split; [exact F |]);
        intros [| j] earlier Hj Hn; cbn [nth_error] in Hn;
        try (injection Hn as <-; exact Lp);
        apply (Before j earlier); (lia || exact Hn).
    + exists 0%nat, page. split; [do 2 f_equal; lia |].
      split; [reflexivity |].
      split; [unfold loads; now rewrite L | intros j earlier Hj; lia].
Qed.

Lemma assemble_resolves (env : Env) (marks : list Mark.t) (pages : list Page.t) :
  forall (i : nat) (pdf out : list PdfPage),
    assemble env i pages marks pdf = Resolved out ->
    Forall (loads env) pages /\
    length out
    = (length pdf + length (filter (getContext env) (seq i (length pages))))%nat.
Proof.
  induction pages as [| page rest IH]; intros i pdf out A; cbn [assemble] in A.
  - injection A as <-. split; [constructor | simpl; lia].
  - destruct (loadImage env (Page.imageUrl page)) as [[w h] |] eqn:L;
      try discriminate A.
    assert (loads env page) as Lp by (unfold loads; now rewrite L).
    cbn [length seq filter].
    destruct (getContext env i); cbn [negb] in A;
      destruct (IH _ _ _ A) as [F Len]; (split; [now constructor |]).
    + rewrite Len, length_app. simpl. lia.
    + exact Len.
Qed.

(** C6, amended.  An image that fails to load makes the whole call fail
    with the load error of the first failing page, and a document is only
    produced when every image loaded.  A page is nevertheless left out,
    without any error, when its canvas yields no drawing context: the
    document has one page for each page that got a context. *)
Theorem load_errors_propagate
  (env : Env) (pages : list Page.t) (marks : list Mark.t) :
  (Exists (fun page => ~ loads env page) pages ->
   exists k failing,
     generateGradedPDF env pages marks = Rejected (ImageLoadError k) /\
     nth_error pages k = Some failing /\ ~ loads env failing /\
     forall j earlier,
       (j < k)%nat -> nth_error pages j = Some earlier -> loads env earlier) /\
  (forall pdf,
     generateGradedPDF env pages marks = Resolved pdf ->
     Forall (loads env) pages /\
     length pdf = length (filter (getContext env) (seq 0 (length pages))) /\
     ((forall i, (i < length pages)%nat -> getContext env i = true) ->
      length pdf = length pages)).
Proof.
  unfold generateGradedPDF. split.
  - intros Hex. destruct (assemble_rejects env marks pages 0 [] Hex)
      as (k & failing & E & N & F & Before).
    exists k, failing. auto.
  - intros pdf A. destruct (assemble_resolves env marks pages 0 [] pdf A)
      as [F Len].
    split; [exact F |]. split; [exact Len |].
    intros All. rewrite Len. cbn [length Nat.add].
    rewrite <- (length_seq (length pages) 0) at 2.
    f_equal. apply forallb_filter_id. apply forallb_forall.
    intros i Hi. apply in_seq in Hi. apply All. lia.
Qed.

(** C6 as stated fails: a page whose canvas has no drawing context
    disappears from the document and the caller gets no error. *)
Lemma page_dropped_without_error :
  generateGradedPDF (browser (800, 600)%Z false) [scan; scan] fourMarks
  = Resolved [] /\
  (exists k, generateGradedPDF brokenImage [scan] fourMarks
             = Rejected (ImageLoadError k)).
Proof. split; [reflexivity | exists 0%nat; reflexivity]. Qed.

End CompositorFacts.

(* ===================================================================== *)
(** * The orientation reconciler: composition and whole runs *)
(* ===================================================================== *)

Module GradingFacts.
Import Reconciler Notions Checks MoreSamples.
Local Open Scope Q_scope.

(** ** Turning marks *)

Lemma format_0 : Double.format 0.
Proof. apply (DoubleFacts.format_int 0). vm_compute. discriminate. Qed.

Lemma format_100 : Double.format 100.
Proof. apply (DoubleFacts.format_int 100). vm_compute. discriminate. Qed.

Lemma percentage_sub (v : number) :
  percentage v -> percentage (Double.sub 100 v).
Proof.
  intros [[Lo Hi] _]. unfold percentage, Double.sub. repeat split.
  - apply DoubleFacts.round_ge; [apply format_0 | lra].
  - apply DoubleFacts.round_le; [apply format_100 | lra].
  - apply DoubleFacts.round_format.
Qed.

Lemma transformMark_percentages (rotation : Z) (m : Raw.t) :
  rawOnPage m -> rawOnPage (transformMark rotation m).
Proof.
  intros [Hx Hy]. destruct m as [x y s q a c e]. cbn [Raw.x Raw.y] in Hx, Hy.
  unfold transformMark, rawOnPage. cbn [Raw.x Raw.y].
  destruct (rotation =? 90)%Z; [| destruct (rotation =? 180)%Z;
    [| destruct (rotation =? 270)%Z]];
    cbn [Raw.with_xy Raw.x Raw.y]; split;
    try assumption; now apply percentage_sub.
Qed.

(** X1.  Two quarter turns in the same direction are exactly a half
    turn: turning the marks by 90 degrees twice, or by 270 degrees
    twice, gives the marks of one turn by 180 degrees, with no further
    rounding. *)
Theorem quarter_turns_compose (m : Raw.t) :
  transformMark 90 (transformMark 90 m) = transformMark 180 m /\
  transformMark 270 (transformMark 270 m) = transformMark 180 m.
Proof. destruct m. split; reflexivity. Qed.

(** X2.  A quarter turn is undone by the opposite quarter turn, and a
    half turn by a half turn, up to the rounding of the two
    subtractions: a coordinate that was subtracted from 100 twice comes
    back within 2^-46, the other one comes back exactly, and no other
    field changes. *)
Theorem turn_undone (m : Raw.t) :
  (0 <= Raw.x m <= 100) -> (0 <= Raw.y m <= 100) ->
  let twice v := Double.sub 100 (Double.sub 100 v) in
  transformMark 270 (transformMark 90 m)
  = Raw.with_xy m (Raw.x m) (twice (Raw.y m)) /\
  transformMark 90 (transformMark 270 m)
  = Raw.with_xy m (twice (Raw.x m)) (Raw.y m) /\
  transformMark 180 (transformMark 180 m)
  = Raw.with_xy m (twice (Raw.x m)) (twice (Raw.y m)) /\
  Qabs (twice (Raw.x m) - Raw.x m) <= 1 # (2 ^ 46) /\
  Qabs (twice (Raw.y m) - Raw.y m) <= 1 # (2 ^ 46).
Proof.
  intros Hx Hy twice. repeat split; try (destruct m; reflexivity).
  - now apply ReconcilerFacts.sub_100_twice.
  - now apply ReconcilerFacts.sub_100_twice.
Qed.

Lemma turn_undone_witness :
  let m := Raw.mk 10 (1 # 3) correct None None None None in
  Qabs (Raw.y (transformMark 270 (transformMark 90 m)) - (1 # 3))
  <= 1 # (2 ^ 46).
Proof.
  intros m.
  destruct (turn_undone m) as (E & _ & _ & _ & B).
  - cbn. lra.
  - cbn. lra.
  - rewrite E. exact B.
Defined.

(** X3.  Whatever rotation the service asks for, marks given as
    percentages stay percentages: both coordinates of the turned mark
    are JavaScript numbers between 0 and 100. *)
Theorem transformMark_keeps_percentages (rotation : Z) (m : Raw.t) :
  rawOnPage m -> rawOnPage (transformMark rotation m).
Proof. apply transformMark_percentages. Qed.

Lemma transformMark_keeps_percentages_witness :
  rawOnPage (transformMark 90 (Raw.mk 10 20 correct None None None None)).
Proof.
  apply transformMark_keeps_percentages.
  split; (split; [cbn; lra |]).
  - apply (DoubleFacts.format_int 10). vm_compute. discriminate.
  - apply (DoubleFacts.format_int 20). vm_compute. discriminate.
Defined.

(** ** Whole runs of [gradeExamPages] *)

Lemma transformMark_0 (m : Raw.t) : transformMark 0 m = m.
Proof. now destruct m. Qed.

Lemma placement_newMarks (env : Env) (page : Page.t) (i : nat)
  (language : jsstring) (raws : list Raw.t) :
  forall n,
    map placement
      (map (fun km => newMark page i language (randomSuffix env (fst km)) (snd km))
         (combine (seq n (length raws)) raws))
    = map (fun m => (Raw.x m, Raw.y m, i, Raw.status m)) raws.
Proof.
  induction raws as [| r raws IH]; intros n; cbn [length seq combine map];
    [reflexivity |].
  now rewrite IH.
Qed.

Lemma texted_newMarks (env : Env) (page : Page.t) (i : nat)
  (language : jsstring) (raws : list Raw.t) :
  forall n,
    Forall texted
      (map (fun km => newMark page i language (randomSuffix env (fst km)) (snd km))
         (combine (seq n (length raws)) raws)).
Proof.
  induction raws as [| r raws IH]; intros n; cbn [length seq combine map];
    constructor; [| apply IH].
  unfold texted, newMark.
  cbn [Mark.question Mark.studentAnswer Mark.correctAnswer Mark.explanation
       fst snd].
  destruct (JsString.eqb language zh);
    destruct (Raw.question r) as [[|] |], (Raw.student_answer r) as [[|] |],
      (Raw.correct_answer r) as [[|] |], (Raw.explanation r) as [[|] |];
    repeat split; reflexivity.
Qed.

Lemma setPage_at (p page : Page.t) (done rest : list Page.t) :
  setPage (length done) p (done ++ page :: rest) = done ++ p :: rest.
Proof.
  induction done as [| q done IH]; cbn [length app setPage];
    [reflexivity | now rewrite IH].
Qed.

Section Runs.
Variable env : Env.

(** One turn of the page loop that resolves: the page stored and the
    marks pushed. *)
Lemma gradePage_resolved (i : nat) (page : Page.t) (st st' : State)
  (done rest : list Page.t) :
  processedPages st = done ++ page :: rest -> length done = i ->
  gradePage env i page st = Resolved st' ->
  exists page' created,
    processedPages st' = done ++ page' :: rest /\
    corrected env page page' /\
    allMarks st' = allMarks st ++ created /\
    Forall texted created /\
    map placement created
    = map (fun m =>
             let m' := transformMark (rotationOf env page) m in
             (Raw.x m', Raw.y m', i, Raw.status m'))
          (reported env page).
Proof.
  intros Hp Hi. unfold gradePage, corrected, rotationOf, reported.
  destruct (generateContent env page) as [[| result] |]; try discriminate.
  - intros [= <-]. exists page, []. rewrite app_nil_r.
    repeat split; auto.
  - set (rotation := match rotation_needed result with
                     | Some r => r | None => 0%Z end).
    set (language := JsString.or_else (detected_language result) (js "en")).
    set (raws := match marks result with Some l => l | None => [] end).
    unfold rotateImage.
    destruct (rotation =? 0)%Z eqn:R; cbn [negb bind].
    + apply Z.eqb_eq in R. rewrite ReconcilerFacts.pushMarks_spec.
      intros [= <-]. cbn [allMarks processedPages].
      rewrite Hp, <- Hi, setPage_at.
      eexists _, _. split; [reflexivity |]. split; [| split; [reflexivity |]].
      * cbn [withLanguage Page.id Page.file Page.detectedLanguage Page.imageUrl].
        repeat split; reflexivity.
      * split; [apply texted_newMarks |].
        rewrite placement_newMarks. apply map_ext. intros m.
        rewrite R, transformMark_0. reflexivity.
    + destruct (canvasRotate env (Page.imageUrl page) rotation) as [url |];
        cbn [bind]; try discriminate.
      rewrite ReconcilerFacts.pushMarks_spec.
      intros [= <-]. cbn [allMarks processedPages].
      rewrite Hp, <- Hi, setPage_at.
      eexists _, _. split; [reflexivity |]. split; [| split; [reflexivity |]].
      * cbn [withLanguage Page.id Page.file Page.detectedLanguage Page.imageUrl].
        repeat split; reflexivity.
      * split; [apply texted_newMarks |].
        rewrite placement_newMarks, map_map. reflexivity.
Qed.

Lemma gradeLoop_resolved (pages : list Page.t) :
  forall (i : nat) (st st' : State) (done : list Page.t),
    processedPages st = done ++ pages -> length done = i ->
    gradeLoop env i pages st = Resolved st' ->
    exists pages' created,
      processedPages st' = done ++ pages' /\
      Forall2 (corrected env) pages pages' /\
      allMarks st' = allMarks st ++ created /\
      Forall texted created /\
      map placement created = expectedPlacements env i pages.
Proof.
  induction pages as [| page rest IH]; intros i st st' done Hp Hi;
    cbn [gradeLoop expectedPlacements].
  - intros [= <-]. exists [], [].
    repeat split; auto; now rewrite app_nil_r in *.
  - destruct (gradePage env i page st) as [st1 | e] eqn:G; cbn [bind];
      try discriminate.
    intros L.
    destruct (gradePage_resolved i page st st1 done rest Hp Hi G)
      as (page' & c1 & Hp1 & Hc & Hm1 & Ht1 & Hpl1).
    destruct (IH (S i) st1 st' (done ++ [page'])) as
      (pages' & c2 & Hp2 & Hcs & Hm2 & Ht2 & Hpl2); trivial.
    + now rewrite <- app_assoc.
    + rewrite length_app. cbn [length]. lia.
    + exists (page' :: pages'), (c1 ++ c2). repeat split.
      * now rewrite Hp2, <- app_assoc.
      * now constructor.
      * now rewrite Hm2, Hm1, app_assoc.
      * apply Forall_app. now split.
      * now rewrite map_app, Hpl1, Hpl2.
Qed.

Lemma gradeExamPages_resolved (pages pages' : list Page.t) (created : list Mark.t) :
  gradeExamPages env pages = Resolved (created, pages') ->
  Forall2 (corrected env) pages pages' /\
  Forall texted created /\
  map placement created = expectedPlacements env 0 pages.
Proof.
  unfold gradeExamPages. destruct (apiKeyConfigured env); cbn [negb];
    try discriminate.
  destruct (gradeLoop env 0 pages _) as [st' | e] eqn:L; cbn [bind];
    try discriminate.
  intros [= <- <-].
  destruct (gradeLoop_resolved pages 0
              {| allMarks := []; processedPages := pages; draws := 0 |}
              st' [] eq_refl eq_refl L)
    as (ps & c & Hp & Hc & Hm & Ht & Hpl).
  cbn [allMarks app] in Hm. cbn [app] in Hp. rewrite Hp, Hm. auto.
Qed.

(** Which turns of the page loop resolve. *)
Lemma gradePage_outcome (i : nat) (page : Page.t) (st : State) :
  (exists st', gradePage env i page st = Resolved st') <-> gradable env page.
Proof.
  unfold gradePage, gradable, rotationOf.
  destruct (generateContent env page) as [[| result] |].
  - split; [intros _; split; discriminate | intros _; now exists st].
  - set (rotation := match rotation_needed result with
                     | Some r => r | None => 0%Z end).
    unfold rotateImage.
    destruct (rotation =? 0)%Z; cbn [negb bind].
    + rewrite ReconcilerFacts.pushMarks_spec.
      split; [intros _; split; discriminate | intros _; eauto].
    + destruct (canvasRotate env (Page.imageUrl page) rotation); cbn [bind].
      * rewrite ReconcilerFacts.pushMarks_spec.
        split; [intros _; split; discriminate | intros _; eauto].
      * split; [intros [? [=]] | intros [_ H]; now elim H].
  - split; [intros [? [=]] | intros [H _]; now elim H].
Qed.

Lemma gradeLoop_outcome (pages : list Page.t) :
  forall (i : nat) (st : State),
    (exists st', gradeLoop env i pages st = Resolved st')
    <-> Forall (gradable env) pages.
Proof.
  induction pages as [| page rest IH]; intros i st; cbn [gradeLoop].
  - split; [constructor | eauto].
  - pose proof (gradePage_outcome i page st) as P.
    destruct (gradePage env i page st) as [st1 | e]; cbn [bind].
    + rewrite IH. split.
      * intros F. constructor; [apply P; eauto | exact F].
      * intros F. now inversion F.
    + split; [intros [? [=]] |].
      intros F. inversion F as [| ? ? G _]. apply P in G.
      destruct G as [? [=]].
Qed.

(** Where the expected placements come from. *)
Lemma expected_entry (pages : list Page.t) :
  forall (i : nat) (x y : number) (k : nat) (s : Status),
    In (x, y, k, s) (expectedPlacements env i pages) ->
    (i <= k < i + length pages)%nat /\
    exists page raw,
      nth_error pages (k - i) = Some page /\ In raw (reported env page) /\
      x = Raw.x (transformMark (rotationOf env page) raw) /\
      y = Raw.y (transformMark (rotationOf env page) raw) /\
      s = Raw.status raw.
Proof.
  induction pages as [| page rest IH]; intros i x y k s;
    cbn [expectedPlacements length]; [intros [] |].
  rewrite in_app_iff, in_map_iff. intros [(raw & E & Hin) | Hin].
  - injection E as <- <- <- <-. split; [lia |].
    exists page, raw. rewrite Nat.sub_diag. repeat split; trivial.
    unfold transformMark.
    now destruct raw, (rotationOf env page =? 90)%Z,
      (rotationOf env page =? 180)%Z, (rotationOf env page =? 270)%Z.
  - destruct (IH _ _ _ _ _ Hin) as (B & page' & raw & N & R).
    split; [lia |]. exists page', raw. split; [| exact R].
    replace (k - i)%nat with (S (k - S i)) by lia. exact N.
Qed.

End Runs.

Lemma graded_percentages (env : Env) (pages pages' : list Page.t)
  (created : list Mark.t) :
  reportsPercentages env ->
  gradeExamPages env pages = Resolved (created, pages') ->
  Forall (fun m => markOnPage m /\ (Mark.pageIndex m < length pages)%nat) created.
Proof.
  intros Hr G. apply gradeExamPages_resolved in G. destruct G as (_ & _ & Hpl).
  apply Forall_forall. intros m Hm.
  apply (in_map placement) in Hm. rewrite Hpl in Hm. unfold placement in Hm.
  apply expected_entry in Hm.
  destruct Hm as (B & page & raw & _ & Hin & Ex & Ey & _).
  split; [| lia].
  specialize (Hr page). rewrite Forall_forall in Hr.
  destruct (transformMark_percentages (rotationOf env page) raw (Hr raw Hin))
    as [Px Py].
  unfold markOnPage. now rewrite Ex, Ey.
Qed.

(** Two scans and what [twoMarkService] makes of them. *)
Lemma two_scans :
  gradeExamPages twoMarkService [Samples.scan; Samples.scan]
  = Resolved
      ([newMark Samples.scan 0 (js "zh") (js "0")
          (Raw.mk 80 10 correct None None None None);
        newMark Samples.scan 0 (js "zh") (js "1")
          (Raw.mk (175 # 2) 75 incorrect (Some (js "2+2")) None
             (Some (js "4")) None);
        newMark Samples.scan 1 (js "zh") (js "2")
          (Raw.mk 80 10 correct None None None None);
        newMark Samples.scan 1 (js "zh") (js "3")
          (Raw.mk (175 # 2) 75 incorrect (Some (js "2+2")) None
             (Some (js "4")) None)],
       [withLanguage Samples.scan (js "blob:1#rotated") (js "zh");
        withLanguage Samples.scan (js "blob:1#rotated") (js "zh")]).
Proof. vm_compute. reflexivity. Qed.

(** X4.  When grading resolves, the marks it returns are, page after
    page and in the order of the service's answer, the service's marks
    turned by the rotation of their page: each carries the turned
    coordinates, the index of its page and the status the service
    gave. *)
Theorem graded_placements (env : Env) (pages pages' : list Page.t)
  (created : list Mark.t) :
  gradeExamPages env pages = Resolved (created, pages') ->
  map placement created = expectedPlacements env 0 pages.
Proof. intros G. now apply gradeExamPages_resolved in G. Qed.

Lemma graded_placements_witness :
  exists created pages',
    gradeExamPages twoMarkService [Samples.scan; Samples.scan]
    = Resolved (created, pages') /\
    map placement created
    = expectedPlacements twoMarkService 0 [Samples.scan; Samples.scan].
Proof.
  eexists _, _. split; [apply two_scans |].
  apply (graded_placements _ _ _ _ two_scans).
Defined.

(** X5.  When grading resolves, the pages it returns are the input
    pages in the same order, each with its id and file: a page the
    service answered carries the detected language (English when none
    is named) and the image turned as asked (its own image when no
    rotation is asked), and a page answered without text is returned
    untouched. *)
Theorem graded_pages (env : Env) (pages pages' : list Page.t)
  (created : list Mark.t) :
  gradeExamPages env pages = Resolved (created, pages') ->
  Forall2 (corrected env) pages pages'.
Proof. intros G. now apply gradeExamPages_resolved in G. Qed.

Lemma graded_pages_witness :
  exists pages',
    Forall2 (corrected twoMarkService) [Samples.scan; Samples.scan] pages'.
Proof.
  eexists. apply (graded_pages _ _ _ _ two_scans).
Defined.

(** X6.  Every mark returned by a grading run has its four texts
    (question, student answer, correct answer, explanation) present and
    not empty, whatever the service left out. *)
Theorem graded_texts (env : Env) (pages pages' : list Page.t)
  (created : list Mark.t) :
  gradeExamPages env pages = Resolved (created, pages') ->
  Forall texted created.
Proof. intros G. now apply gradeExamPages_resolved in G. Qed.

Lemma graded_texts_witness :
  exists created, length created = 4%nat /\ Forall texted created.
Proof.
  eexists. split; [| apply (graded_texts _ _ _ _ two_scans)]. reflexivity.
Defined.

(** X7.  Grading is all or nothing: it resolves exactly when the API key
    is configured, the service answered every page, and every image the
    service wanted turned could be turned; otherwise it rejects and
    returns no marks at all, also when earlier pages were graded. *)
Theorem grading_resolves_iff (env : Env) (pages : list Page.t) :
  (exists r, gradeExamPages env pages = Resolved r)
  <-> apiKeyConfigured env = true /\ Forall (gradable env) pages.
Proof.
  unfold gradeExamPages.
  destruct (apiKeyConfigured env); cbn [negb].
  - rewrite <- (gradeLoop_outcome env pages 0
                  {| allMarks := []; processedPages := pages; draws := 0 |}).
    destruct (gradeLoop env 0 pages _) as [st | e]; cbn [bind].
    + split; eauto.
    + split; [intros [? [=]] | intros [_ [? [=]]]].
  - split; [intros [? [=]] | intros [[=] _]].
Qed.

(** X8.  If the service reports percentages, every mark returned by a
    grading run lies on its page: both coordinates are JavaScript
    numbers between 0 and 100, and the page index is below the number of
    pages. *)
Theorem graded_marks_on_page (env : Env) (pages pages' : list Page.t)
  (created : list Mark.t) :
  reportsPercentages env ->
  gradeExamPages env pages = Resolved (created, pages') ->
  Forall (fun m => markOnPage m /\ (Mark.pageIndex m < length pages)%nat) created.
Proof. apply graded_percentages. Qed.

Lemma twoMarkService_percentages : reportsPercentages twoMarkService.
Proof.
  intros page. unfold reported. cbn [twoMarkService generateContent marks].
  repeat constructor; cbn [Raw.x Raw.y]; try lra;
    apply DoubleFacts.is_double_format; vm_compute; reflexivity.
Qed.

Lemma graded_marks_on_page_witness :
  exists created,
    length created = 4%nat /\
    Forall (fun m => markOnPage m /\ (Mark.pageIndex m < 2)%nat) created.
Proof.
  eexists. split;
    [| apply (graded_marks_on_page _ _ _ _ twoMarkService_percentages two_scans)].
  reflexivity.
Defined.

End GradingFacts.

(* ===================================================================== *)
(** * The grading canvas: clicks and status toggles *)
(* ===================================================================== *)

Module CanvasFacts.
Import GradingCanvas Editor Session Checks MoreSamples.
Local Open Scope Q_scope.

(** ** Clicks *)

Lemma handleImageClick_adds (expandedMarkId : option jsstring) (pageIndex : nat)
  (e : Click) :
  reachesImage expandedMarkId e ->
  handleImageClick expandedMarkId pageIndex e
  = MarkRequested
      (clampPercent (alongAxis (clientX e) (left (rect e)) (width (rect e))))
      (clampPercent (alongAxis (clientY e) (top (rect e)) (height (rect e))))
      pageIndex.
Proof.
  intros (M & C & T). unfold handleImageClick, clampPercent, alongAxis.
  rewrite M, C, T. cbn [negb]. reflexivity.
Qed.

Lemma clampPercent_cases (v : number) :
  (v <= 0 /\ clampPercent v == 0) \/
  (0 <= v <= 100 /\ clampPercent v == v) \/
  (100 <= v /\ clampPercent v == 100).
Proof.
  unfold clampPercent, mathMax, mathMin.
  destruct (Qle_bool 100 v) eqn:A.
  - apply Qle_bool_iff in A. right. right. split; [exact A |].
    destruct (Qle_bool 0 100) eqn:B; [reflexivity |].
    exfalso. revert B. vm_compute. discriminate.
  - destruct (Qle_bool 0 v) eqn:B.
    + apply Qle_bool_iff in B. right. left. split; [| reflexivity].
      split; [exact B |].
      destruct (Qlt_le_dec v 100) as [L | L]; [lra |].
      apply Qle_bool_iff in L. congruence.
    + left. split; [| reflexivity].
      destruct (Qlt_le_dec v 0) as [L | L]; [lra |].
      apply Qle_bool_iff in L. congruence.
Qed.

Lemma clampPercent_percentage (v : number) :
  Double.format v -> percentage (clampPercent v).
Proof.
  intros F. unfold percentage.
  destruct (clampPercent_cases v) as [[H E] | [[H E] | [H E]]];
    (split; [rewrite E; lra |]);
    apply (DoubleFacts.format_comp _ _ (Qeq_sym _ _ E)); trivial.
  - apply GradingFacts.format_0.
  - apply GradingFacts.format_100.
Qed.

Lemma alongAxis_format (client origin size : number) :
  Double.format (alongAxis client origin size).
Proof. apply DoubleFacts.round_format. Qed.

Lemma format_1 : Double.format 1.
Proof. apply (DoubleFacts.format_int 1). vm_compute. discriminate. Qed.

(** Where the percentage falls, by the side of the image the pointer is
    on. *)
Lemma alongAxis_sides (client origin size : number) :
  Double.format size -> 0 < size ->
  (client <= origin -> alongAxis client origin size <= 0) /\
  (origin <= client <= origin + size ->
   0 <= alongAxis client origin size <= 100) /\
  (origin + size <= client -> 100 <= alongAxis client origin size).
Proof.
  intros F P. unfold alongAxis, Double.mul, Double.div, Double.sub.
  pose proof GradingFacts.format_0 as F0.
  pose proof GradingFacts.format_100 as F100.
  pose proof format_1 as F1.
  set (d := Double.round (client - origin)).
  set (r := Double.round (d / size)).
  assert (forall a, 0 <= a -> 0 <= a / size) as Dpos.
  { intros a Ha. apply Qle_shift_div_l; [exact P | lra]. }
  assert (forall a, a <= 0 -> a / size <= 0) as Dneg.
  { intros a Ha. apply Qle_shift_div_r; [exact P | lra]. }
  repeat split.
  - intros H.
    assert (d <= 0) as Hd by (apply DoubleFacts.round_le; [exact F0 | lra]).
    assert (r <= 0) as Hr by (apply DoubleFacts.round_le; auto).
    apply DoubleFacts.round_le; [exact F0 | lra].
  - assert (0 <= d) as Hd by (apply DoubleFacts.round_ge; [exact F0 | lra]).
    assert (0 <= r) as Hr by (apply DoubleFacts.round_ge; auto).
    apply DoubleFacts.round_ge; [exact F0 | lra].
  - destruct H as [_ H].
    assert (d <= size) as Hd by (apply DoubleFacts.round_le; [exact F | lra]).
    assert (r <= 1) as Hr.
    { apply DoubleFacts.round_le; [exact F1 |].
      apply Qle_shift_div_r; [exact P | lra]. }
    apply DoubleFacts.round_le; [exact F100 | lra].
  - intros H.
    assert (size <= d) as Hd by (apply DoubleFacts.round_ge; [exact F | lra]).
    assert (1 <= r) as Hr.
    { apply DoubleFacts.round_ge; [exact F1 |].
      apply Qle_shift_div_l; [exact P | lra]. }
    apply DoubleFacts.round_ge; [exact F100 | lra].
Qed.

Lemma click_percentages (expandedMarkId : option jsstring) (pageIndex p : nat)
  (e : Click) (safeX safeY : number) :
  handleImageClick expandedMarkId pageIndex e = MarkRequested safeX safeY p ->
  reachesImage expandedMarkId e /\ p = pageIndex /\
  percentage safeX /\ percentage safeY.
Proof.
  destruct (imgMounted e) eqn:M; [destruct (onControl e) eqn:C;
    [| destruct (JsString.truthy expandedMarkId) eqn:T] |].
  - unfold handleImageClick. rewrite M, C. discriminate.
  - unfold handleImageClick. rewrite M, C, T. discriminate.
  - assert (reachesImage expandedMarkId e) as R by (repeat split; assumption).
    rewrite (handleImageClick_adds _ _ _ R). intros [= <- <- <-].
    repeat split; trivial;
      apply clampPercent_percentage, alongAxis_format.
  - unfold handleImageClick. rewrite M. discriminate.
Qed.

Lemma middle_click :
  handleImageClick None 0 middleClick = MarkRequested 50 50 0.
Proof. vm_compute. reflexivity. Qed.

Lemma middleClick_laidOut : laidOut middleClick /\ sized middleClick.
Proof.
  unfold laidOut, sized.
  cbn [middleClick rect width height].
  repeat split; try reflexivity;
    try (apply DoubleFacts.is_double_format; vm_compute; reflexivity);
    intros H; vm_compute in H; discriminate H.
Qed.

(** X9.  A click on the image wrapper asks for at most one mark, and only
    when the image is mounted, the target is neither a button nor a note
    and no note is open; an open note is closed instead.  The mark asked
    for is on the page shown and both its coordinates are JavaScript
    numbers between 0 and 100, wherever the pointer was.  (The image has
    a size: a division by zero is outside the number model.) *)
Theorem click_effects (expandedMarkId : option jsstring) (pageIndex : nat)
  (e : Click) :
  sized e ->
  match handleImageClick expandedMarkId pageIndex e with
  | MarkRequested safeX safeY p =>
    reachesImage expandedMarkId e /\ p = pageIndex /\
    percentage safeX /\ percentage safeY
  | NoteClosed =>
    imgMounted e = true /\ onControl e = false /\
    JsString.truthy expandedMarkId = true
  | Ignored => imgMounted e = false \/ onControl e = true
  end.
Proof.
  intros _.
  destruct (handleImageClick expandedMarkId pageIndex e) as [| | sx sy p] eqn:H.
  - unfold handleImageClick in H.
    destruct (imgMounted e); [| now left].
    destruct (onControl e); [now right |].
    cbn [negb] in H. destruct (JsString.truthy expandedMarkId); discriminate H.
  - unfold handleImageClick in H.
    destruct (imgMounted e); [| discriminate H].
    destruct (onControl e); [discriminate H |].
    cbn [negb] in H.
    destruct (JsString.truthy expandedMarkId); [auto | discriminate H].
  - now apply click_percentages in H.
Qed.

Lemma click_effects_witness :
  percentage 50 /\ reachesImage None middleClick.
Proof.
  pose proof (click_effects None 0 middleClick (proj2 middleClick_laidOut)) as H.
  rewrite middle_click in H. tauto.
Defined.

(** X10.  For a click inside the image the clamp changes nothing: the
    mark asked for sits at the percentages computed from the pointer
    position, ((clientX - left) / width) * 100 and its vertical
    counterpart, as JavaScript computes them. *)
Theorem click_inside_image (expandedMarkId : option jsstring) (pageIndex : nat)
  (e : Click) :
  reachesImage expandedMarkId e -> laidOut e ->
  left (rect e) <= clientX e <= left (rect e) + width (rect e) ->
  top (rect e) <= clientY e <= top (rect e) + height (rect e) ->
  exists safeX safeY,
    handleImageClick expandedMarkId pageIndex e
    = MarkRequested safeX safeY pageIndex /\
    safeX == alongAxis (clientX e) (left (rect e)) (width (rect e)) /\
    safeY == alongAxis (clientY e) (top (rect e)) (height (rect e)).
Proof.
  intros R (Fw & Fh & Pw & Ph) Hx Hy.
  eexists _, _. split; [apply (handleImageClick_adds _ _ _ R) |].
  destruct (alongAxis_sides (clientX e) (left (rect e)) _ Fw Pw) as (_ & Ix & _).
  destruct (alongAxis_sides (clientY e) (top (rect e)) _ Fh Ph) as (_ & Iy & _).
  specialize (Ix Hx). specialize (Iy Hy).
  split.
  - destruct (clampPercent_cases
                (alongAxis (clientX e) (left (rect e)) (width (rect e))))
      as [[H E] | [[H E] | [H E]]]; rewrite E; lra.
  - destruct (clampPercent_cases
                (alongAxis (clientY e) (top (rect e)) (height (rect e))))
      as [[H E] | [[H E] | [H E]]]; rewrite E; lra.
Qed.

Lemma click_inside_image_witness :
  exists safeX safeY,
    handleImageClick None 0 middleClick = MarkRequested safeX safeY 0 /\
    safeX == alongAxis 220 20 400 /\ safeY == alongAxis 400 100 600.
Proof.
  apply (click_inside_image None 0 middleClick).
  - repeat split; reflexivity.
  - apply middleClick_laidOut.
  - cbn. lra.
  - cbn. lra.
Defined.

(** X11.  A click on the wrapper beside the image is pinned to the
    border: left of the image the mark gets x = 0, right of it x = 100,
    above it y = 0 and below it y = 100. *)
Theorem click_outside_image (expandedMarkId : option jsstring) (pageIndex : nat)
  (e : Click) :
  reachesImage expandedMarkId e -> laidOut e ->
  exists safeX safeY,
    handleImageClick expandedMarkId pageIndex e
    = MarkRequested safeX safeY pageIndex /\
    (clientX e <= left (rect e) -> safeX == 0) /\
    (left (rect e) + width (rect e) <= clientX e -> safeX == 100) /\
    (clientY e <= top (rect e) -> safeY == 0) /\
    (top (rect e) + height (rect e) <= clientY e -> safeY == 100).
Proof.
  intros R (Fw & Fh & Pw & Ph).
  eexists _, _. split; [apply (handleImageClick_adds _ _ _ R) |].
  destruct (alongAxis_sides (clientX e) (left (rect e)) _ Fw Pw) as (Lx & _ & Rx).
  destruct (alongAxis_sides (clientY e) (top (rect e)) _ Fh Ph) as (Ly & _ & Ry).
  repeat split; intros H.
  - specialize (Lx H).
    destruct (clampPercent_cases
                (alongAxis (clientX e) (left (rect e)) (width (rect e))))
      as [[H' E] | [[H' E] | [H' E]]]; rewrite E; lra.
  - specialize (Rx H).
    destruct (clampPercent_cases
                (alongAxis (clientX e) (left (rect e)) (width (rect e))))
      as [[H' E] | [[H' E] | [H' E]]]; rewrite E; lra.
  - specialize (Ly H).
    destruct (clampPercent_cases
                (alongAxis (clientY e) (top (rect e)) (height (rect e))))
      as [[H' E] | [[H' E] | [H' E]]]; rewrite E; lra.
  - specialize (Ry H).
    destruct (clampPercent_cases
                (alongAxis (clientY e) (top (rect e)) (height (rect e))))
      as [[H' E] | [[H' E] | [H' E]]]; rewrite E; lra.
Qed.

Lemma outsideClick_laidOut :
  reachesImage None outsideClick /\ laidOut outsideClick.
Proof.
  unfold reachesImage, laidOut.
  cbn [outsideClick imgMounted onControl rect width height JsString.truthy].
  repeat split;
    apply DoubleFacts.is_double_format; vm_compute; reflexivity.
Qed.

Lemma click_outside_image_witness :
  exists safeX safeY,
    handleImageClick None 0 outsideClick = MarkRequested safeX safeY 0 /\
    safeX == 0 /\ safeY == 100.
Proof.
  destruct (click_outside_image None 0 outsideClick
              (proj1 outsideClick_laidOut) (proj2 outsideClick_laidOut))
    as (sx & sy & E & L & _ & _ & B).
  exists sx, sy. split; [exact E |]. split.
  - apply L. cbn. lra.
  - apply B. cbn. lra.
Defined.

(** ** Status toggles *)

Lemma toggled_twice (mark : Mark.t) : toggled (toggled mark) = mark.
Proof. destruct mark as [i x y [] p q a c ex]; reflexivity. Qed.

Lemma same_id_same_mark (marks : list Mark.t) (a b : Mark.t) :
  NoDup (map Mark.id marks) -> In a marks -> In b marks ->
  Mark.id a = Mark.id b -> a = b.
Proof.
  induction marks as [| m marks IH]; intros Nd Ha Hb E; [destruct Ha |].
  cbn [map] in Nd. inversion Nd as [| ? ? Fresh Nd']; subst.
  destruct Ha as [-> | Ha], Hb as [-> | Hb]; trivial.
  - elim Fresh. rewrite E. now apply in_map.
  - elim Fresh. rewrite <- E. now apply in_map.
  - now apply IH.
Qed.

Lemma updateMark_split (u mark : Mark.t) (before after : list Mark.t) :
  NoDup (map Mark.id (before ++ mark :: after)) ->
  Mark.id u = Mark.id mark ->
  updateMark u (before ++ mark :: after) = before ++ u :: after.
Proof.
  intros Nd E. unfold updateMark. rewrite map_app. cbn [map].
  rewrite <- E, (proj2 (JsStringFacts.eqb_eq _ _) eq_refl).
  assert (forall m, In m before \/ In m after -> Mark.id m <> Mark.id u) as D.
  { intros m Hm Em.
    assert (In m (before ++ mark :: after)) as Hin
      by (apply in_app_iff; cbn [In]; tauto).
    assert (In mark (before ++ mark :: after)) as Hmark
      by (apply in_app_iff; cbn [In]; tauto).
    rewrite E in Em.
    pose proof (same_id_same_mark _ _ _ Nd Hin Hmark Em) as ->.
    rewrite map_app in Nd. cbn [map] in Nd.
    apply NoDup_remove_2 in Nd. apply Nd.
    apply in_app_iff. destruct Hm as [Hm | Hm]; [left | right];
      now apply in_map. }
  f_equal; [| f_equal]; apply (EditorFacts.updateMark_no_match u); intros m Hm;
    apply D; tauto.
Qed.

Lemma count_app (s : Status) (l1 l2 : list Mark.t) :
  count s (l1 ++ l2) = (count s l1 + count s l2)%nat.
Proof. unfold count. now rewrite filter_app, length_app. Qed.

(** X12.  When ids are distinct, pressing the status button of a mark
    twice restores the list of marks: the first press flips the status
    of that mark alone, the second press flips it back. *)
Theorem toggle_twice_restores (mark : Mark.t) (marks : list Mark.t) :
  NoDup (map Mark.id marks) -> In mark marks ->
  handleMarkStatusToggle (toggled mark) (handleMarkStatusToggle mark marks)
  = marks.
Proof.
  intros Nd Hin. apply in_split in Hin. destruct Hin as (l1 & l2 & ->).
  unfold handleMarkStatusToggle.
  rewrite (updateMark_split (toggled mark) mark l1 l2 Nd eq_refl).
  rewrite toggled_twice.
  apply updateMark_split; [| reflexivity].
  rewrite map_app in *. exact Nd.
Qed.

Lemma toggle_twice_restores_witness :
  let marks := Samples.fourMarks in
  let mark := Samples.markAt "b" 10 in
  handleMarkStatusToggle (toggled mark) (handleMarkStatusToggle mark marks)
  = marks.
Proof.
  apply toggle_twice_restores.
  - vm_compute. repeat constructor; cbn [In]; intuition discriminate.
  - cbn [Samples.fourMarks In]. tauto.
Defined.

(** X13.  When ids are distinct, pressing the status button of a mark
    moves exactly one mark from one counter of the bottom bar to the
    other: the count of its old status drops by one, the count of its
    new status grows by one, and nothing else in the list changes. *)
Theorem toggle_moves_one (mark : Mark.t) (marks : list Mark.t) :
  NoDup (map Mark.id marks) -> In mark marks ->
  let marks' := handleMarkStatusToggle mark marks in
  (count (Mark.status mark) marks' + 1 = count (Mark.status mark) marks)%nat /\
  (count (flip (Mark.status mark)) marks'
   = count (flip (Mark.status mark)) marks + 1)%nat /\
  length marks' = length marks /\
  forall i m, nth_error marks i = Some m -> m <> mark ->
    nth_error marks' i = Some m.
Proof.
  intros Nd Hin marks'. subst marks'.
  pose proof Hin as Hin'.
  apply in_split in Hin. destruct Hin as (l1 & l2 & ->).
  unfold handleMarkStatusToggle.
  rewrite (updateMark_split (toggled mark) mark l1 l2 Nd eq_refl).
  rewrite !count_app.
  change (l1 ++ toggled mark :: l2) with (l1 ++ [toggled mark] ++ l2).
  change (mark :: l2) with ([mark] ++ l2).
  change (toggled mark :: l2) with ([toggled mark] ++ l2).
  rewrite !count_app, !length_app.
  assert (count (Mark.status mark) [mark] = 1%nat) as A
    by (unfold count; cbn [filter]; now destruct (Mark.status mark)).
  assert (count (Mark.status mark) [toggled mark] = 0%nat) as B
    by (unfold count, toggled; cbn [filter Mark.status];
        now destruct (Mark.status mark)).
  assert (count (flip (Mark.status mark)) [mark] = 0%nat) as C
    by (unfold count; cbn [filter]; now destruct (Mark.status mark)).
  assert (count (flip (Mark.status mark)) [toggled mark] = 1%nat) as D
    by (unfold count, toggled; cbn [filter Mark.status];
        now destruct (Mark.status mark)).
  rewrite A, B, C, D. cbn [length]. repeat split; try lia.
  intros i m Hi Hne.
  destruct (Nat.lt_ge_cases i (length l1)) as [L | L].
  - rewrite nth_error_app1 in * by exact L. exact Hi.
  - rewrite nth_error_app2 in * by exact L.
    destruct (i - length l1)%nat as [| j]; cbn [nth_error app] in *.
    + injection Hi as <-. now elim Hne.
    + exact Hi.
Qed.

Lemma toggle_moves_one_witness :
  let marks := Samples.fourMarks in
  let mark := Samples.markAt "b" 10 in
  (count correct (handleMarkStatusToggle mark marks) + 1
   = count correct marks)%nat.
Proof.
  intros marks mark.
  apply (toggle_moves_one mark marks).
  - vm_compute. repeat constructor; cbn [In]; intuition discriminate.
  - cbn [Samples.fourMarks In marks]. tauto.
Defined.

End CanvasFacts.

(* ===================================================================== *)
(** * The marks of a session *)
(* ===================================================================== *)

Module SessionFacts.
Import Editor GradingCanvas Session Checks MoreSamples.
Local Open Scope Q_scope.

(** ** Removing marks *)

Lemma removeMark_In (markId : jsstring) (prev : list Mark.t) (m : Mark.t) :
  In m (removeMark markId prev) <-> In m prev /\ Mark.id m <> markId.
Proof.
  unfold removeMark. rewrite filter_In, negb_true_iff, JsStringFacts.eqb_neq.
  tauto.
Qed.

Lemma removeMark_absent (markId : jsstring) (prev : list Mark.t) :
  ~ In markId (map Mark.id prev) -> removeMark markId prev = prev.
Proof.
  unfold removeMark. induction prev as [| m prev IH]; cbn [map In filter];
    intros H; [reflexivity |].
  destruct (JsString.eqb (Mark.id m) markId) eqn:E.
  - apply JsStringFacts.eqb_eq in E. tauto.
  - cbn [negb]. f_equal. apply IH. tauto.
Qed.

(** X14.  Removing a mark by its id deletes every mark with that id and
    nothing else: the id no longer occurs afterwards, a list that does
    not hold the id is returned unchanged, and removing twice is
    removing once. *)
Theorem removeMark_removes_by_id (markId : jsstring) (prev : list Mark.t) :
  (forall m, In m (removeMark markId prev)
             <-> In m prev /\ Mark.id m <> markId) /\
  ~ In markId (map Mark.id (removeMark markId prev)) /\
  (~ In markId (map Mark.id prev) -> removeMark markId prev = prev) /\
  removeMark markId (removeMark markId prev) = removeMark markId prev.
Proof.
  assert (~ In markId (map Mark.id (removeMark markId prev))) as Gone.
  { rewrite in_map_iff. intros (m & E & Hin).
    apply removeMark_In in Hin. tauto. }
  split; [intros m; apply removeMark_In |].
  split; [exact Gone |].
  split; [apply removeMark_absent |].
  now apply removeMark_absent.
Qed.

(** X15.  Adding a mark and then removing it gives back the list of
    marks as it was, provided the id of the new mark (made from the
    clock reading) was not in use. *)
Theorem add_then_remove (now : Z) (x y : number) (pageIndex : nat)
  (prev : list Mark.t) :
  ~ In (js "manual-" ++ JsString.of_int now) (map Mark.id prev) ->
  removeMark (js "manual-" ++ JsString.of_int now)
    (addMark now x y pageIndex prev) = prev.
Proof.
  intros Fresh. unfold addMark, removeMark. rewrite filter_app.
  cbn [filter Mark.id].
  rewrite (proj2 (JsStringFacts.eqb_eq _ _) eq_refl). cbn [negb].
  rewrite app_nil_r. now apply removeMark_absent.
Qed.

Lemma add_then_remove_witness :
  removeMark (js "manual-" ++ JsString.of_int 1700000000000)
    (addMark 1700000000000 50 50 0 Samples.fourMarks) = Samples.fourMarks.
Proof.
  apply add_then_remove.
  vm_compute. intuition discriminate.
Defined.

(** ** What a session keeps *)

Lemma act_onPage (marks : list Mark.t) (a : Action) :
  fairAction a -> Forall markOnPage marks -> Forall markOnPage (act marks a).
Proof.
  intros Fa F. destruct a as [env pages | ex p e now | i | i |];
    cbn [act Editor.step fairAction] in *.
  - destruct (Reconciler.gradeExamPages env pages) as [[ai ps] | err] eqn:G;
      [| exact F].
    pose proof (GradingFacts.graded_percentages _ _ _ _ Fa G) as H.
    revert H. apply Forall_impl. tauto.
  - destruct (handleImageClick ex p e) as [| | sx sy p'] eqn:H; try exact F.
    apply CanvasFacts.click_percentages in H. destruct H as (_ & _ & Px & Py).
    unfold addMark. apply Forall_app. split; [exact F |].
    constructor; [| constructor]. now split.
  - destruct (nth_error marks i) as [mark |] eqn:N; [| exact F].
    apply nth_error_In in N.
    pose proof (proj1 (Forall_forall _ _) F mark N) as Pm.
    unfold handleMarkStatusToggle, updateMark. apply Forall_map.
    revert F. apply Forall_impl. intros m Hm.
    destruct (JsString.eqb (Mark.id m) (Mark.id (toggled mark))); trivial.
  - destruct (nth_error marks i) as [mark |]; [| exact F].
    apply Forall_forall. intros m Hm. apply removeMark_In in Hm.
    apply (proj1 (Forall_forall _ _) F). tauto.
  - constructor.
Qed.

Lemma play_onPage (actions : list Action) :
  forall marks,
    Forall fairAction actions -> Forall markOnPage marks ->
    Forall markOnPage (fold_left act actions marks).
Proof.
  induction actions as [| a actions IH]; intros marks Fa F; cbn [fold_left];
    [exact F |].
  inversion Fa; subst. apply IH; [assumption |]. now apply act_onPage.
Qed.

(** X16.  Throughout a session every mark stays on its page: after any
    sequence of grading runs, clicks on the image, status toggles,
    removals and resets, both coordinates of every mark are JavaScript
    numbers between 0 and 100, provided the service reported percentages
    and the clicked images had a size. *)
Theorem session_marks_on_page (actions : list Action) :
  Forall fairAction actions -> Forall markOnPage (play actions).
Proof. intros F. apply play_onPage; [exact F | constructor]. Qed.

Lemma session_marks_on_page_witness :
  let actions :=
    [Graded twoMarkService [Samples.scan; Samples.scan];
     Clicked None 0 middleClick 1700000000000;
     StatusToggled 0; Trashed 1] in
  Forall markOnPage (play actions).
Proof.
  apply session_marks_on_page.
  constructor; [apply GradingFacts.twoMarkService_percentages |].
  constructor; [apply CanvasFacts.middleClick_laidOut |].
  constructor; [exact I |].
  constructor; [exact I | constructor].
Defined.

End SessionFacts.

(* ===================================================================== *)
(** * File names of the report *)
(* ===================================================================== *)

Module FileNameFacts.
Import FileName.

Lemma underscore_is_no_space : isWhiteSpace underscore = false.
Proof. reflexivity. Qed.

Lemma replaceRuns_clean (s : jsstring) :
  forall inRun, Forall (fun c => isWhiteSpace c = false) (replaceRuns inRun s).
Proof.
  induction s as [| c s IH]; intros inRun; cbn [replaceRuns]; [constructor |].
  destruct (isWhiteSpace c) eqn:W; [destruct inRun |]; auto.
Qed.

Lemma replaceRuns_fixed (s : jsstring) :
  Forall (fun c => isWhiteSpace c = false) s ->
  forall inRun, replaceRuns inRun s = s.
Proof.
  induction 1 as [| c s W _ IH]; intros inRun; cbn [replaceRuns];
    [reflexivity |].
  now rewrite W, IH.
Qed.

Lemma replaceRuns_length (s : jsstring) :
  forall inRun, (length (replaceRuns inRun s) <= length s)%nat.
Proof.
  induction s as [| c s IH]; intros inRun; cbn [replaceRuns length]; [lia |].
  pose proof (IH true). pose proof (IH false).
  destruct (isWhiteSpace c); [destruct inRun |]; cbn [length]; lia.
Qed.

Lemma replaceWhiteSpace_nil (s : jsstring) :
  replaceWhiteSpace s = [] <-> s = [].
Proof.
  unfold replaceWhiteSpace. destruct s as [| c s]; cbn [replaceRuns];
    [tauto |].
  destruct (isWhiteSpace c); split; discriminate.
Qed.

Lemma replaceRuns_spaces (spaces rest : jsstring) :
  Checks.allSpace spaces ->
  replaceRuns true (spaces ++ rest) = replaceRuns true rest.
Proof.
  induction 1 as [| c spaces W _ IH]; cbn [app replaceRuns];
    [reflexivity |].
  now rewrite W.
Qed.

Lemma replaceRuns_start (rest : jsstring) :
  Checks.startsSpaceFree rest ->
  replaceRuns true rest = replaceRuns false rest.
Proof.
  destruct rest as [| c rest]; cbn [Checks.startsSpaceFree replaceRuns];
    [reflexivity |].
  now intros ->.
Qed.

Lemma replaceRuns_block (word spaces rest : jsstring) :
  Checks.spaceFree word -> spaces <> [] -> Checks.allSpace spaces ->
  Checks.startsSpaceFree rest ->
  replaceRuns false (word ++ spaces ++ rest)
  = word ++ underscore :: replaceRuns false rest.
Proof.
  intros Hw Hne Hs Hr.
  induction Hw as [| c word W _ IH]; cbn [app replaceRuns].
  - destruct Hs as [| c spaces W Hs]; [now elim Hne |].
    cbn [app replaceRuns]. rewrite W.
    now rewrite (replaceRuns_spaces _ _ Hs), (replaceRuns_start _ Hr).
  - now rewrite W, IH.
Qed.

(** X17.  In the file name of the report every maximal run of white
    space of the student's name is replaced by one underscore and
    everything else is kept: a name without white space is returned as
    it is, and a name that starts with a word, followed by a run of
    white space, followed by a rest that does not begin with white
    space, gives the word, one underscore and the replacement of the
    rest.  Hence the result holds no white space and is no longer than
    the name, the replacement changes nothing when applied again, and
    only the empty name gives the empty result. *)
Theorem replaceWhiteSpace_spec (s : jsstring) :
  (Checks.spaceFree s -> replaceWhiteSpace s = s) /\
  (forall word spaces rest,
     Checks.spaceFree word -> spaces <> [] -> Checks.allSpace spaces ->
     Checks.startsSpaceFree rest ->
     replaceWhiteSpace (word ++ spaces ++ rest)
     = word ++ underscore :: replaceWhiteSpace rest) /\
  Checks.spaceFree (replaceWhiteSpace s) /\
  (length (replaceWhiteSpace s) <= length s)%nat /\
  replaceWhiteSpace (replaceWhiteSpace s) = replaceWhiteSpace s /\
  (replaceWhiteSpace s = [] <-> s = []) /\
  replaceWhiteSpace (js "Ada  Lovelace") = js "Ada_Lovelace" /\
  replaceWhiteSpace (js " a   b ") = js "_a_b_".
Proof.
  unfold replaceWhiteSpace at 1 2 3 4 5 6 7.
  split; [intros H; now apply replaceRuns_fixed |].
  split; [apply replaceRuns_block |].
  split; [apply replaceRuns_clean |].
  split; [apply replaceRuns_length |].
  split; [apply replaceRuns_fixed, replaceRuns_clean |].
  split; [apply replaceWhiteSpace_nil |]. split; reflexivity.
Qed.

(** X18.  The file the share sheet receives and the file the download
    link offers have the same name whenever the student's name is not
    empty; for the empty name the shared file is Exam_Graded_.pdf while
    the download is Exam_Graded_Student.pdf, as it is when no student is
    recorded. *)
Theorem file_names_agree (info : StudentInfo) :
  (name info <> [] -> downloadFileName (Some info) = shareFileName info) /\
  (name info = [] ->
   shareFileName info = js "Exam_Graded_.pdf" /\
   downloadFileName (Some info) = js "Exam_Graded_Student.pdf") /\
  downloadFileName None = js "Exam_Graded_Student.pdf".
Proof.
  unfold downloadFileName, shareFileName. cbn [option_map].
  split; [| split; [| reflexivity]].
  - intros H. destruct (replaceWhiteSpace (name info)) as [| c r] eqn:E;
      [| reflexivity].
    apply (proj1 (replaceWhiteSpace_nil _)) in E. contradiction.
  - intros ->. split; reflexivity.
Qed.

End FileNameFacts.

(* ===================================================================== *)
(** * Wrapping: widths, breaks and positions of the lines *)
(* ===================================================================== *)

Module WrappingFacts.
Import Compositor Checks.
Local Open Scope Q_scope.

Section Lines.
Variable measure : jsstring -> number.
Variables x maxWidth lineHeight : number.

Local Abbreviation loop := (wrapLoop measure).
Local Abbreviation ok := (shortOrFits measure maxWidth).
Local Abbreviation forced := (forcedBreak measure maxWidth).
Local Abbreviation placed := (Checks.placed x lineHeight).

Lemma gt_false (a b : number) : Double.gt a b = false <-> a <= b.
Proof. unfold Double.gt. now rewrite negb_false_iff, Qle_bool_iff. Qed.

Lemma gt_true (a b : number) : Double.gt a b = true <-> b < a.
Proof.
  unfold Double.gt. rewrite negb_true_iff. split.
  - intros H. destruct (Qlt_le_dec b a) as [L | L]; [exact L |].
    apply Qle_bool_iff in L. congruence.
  - intros L. destruct (Qle_bool a b) eqn:E; [| reflexivity].
    apply Qle_bool_iff in E. lra.
Qed.

(** Widths: the pending line and the flushed lines fit or hold one
    character. *)
Lemma wrapLoop_fit (characters : jsstring) :
  forall (i : nat) (line : jsstring) (currentY : number) (drawn : list Line),
    (i = 0%nat -> line = []) -> ok line ->
    Forall (fun l => ok (text l)) drawn ->
    let r := loop characters i x maxWidth lineHeight line currentY drawn in
    ok (fst (fst r)) /\ Forall (fun l => ok (text l)) (snd r).
Proof.
  induction characters as [| c rest IH]; intros i line currentY drawn H0 Hl Hd;
    cbn [wrapLoop]; [now split |].
  destruct (Double.gt (measure (line ++ [c])) maxWidth && (0 <? i)%nat) eqn:B.
  - apply IH; [discriminate | left; cbn [length]; lia |].
    apply Forall_app. split; [exact Hd |].
    constructor; [exact Hl | constructor].
  - apply IH; [discriminate | | exact Hd].
    destruct i as [| j].
    + rewrite (H0 eq_refl). left. cbn [app length]. lia.
    + rewrite andb_false_iff in B. destruct B as [B | B]; [| discriminate B].
      right. now apply gt_false.
Qed.

(** Breaks: the chain of flushed lines ending in the pending line. *)
Lemma forced_snoc (lines : list jsstring) (a b : jsstring) :
  Sorted forced (lines ++ [a]) -> forced a b ->
  Sorted forced ((lines ++ [a]) ++ [b]).
Proof.
  intros S R. induction lines as [| l lines IH]; cbn [app] in *.
  - repeat constructor. exact R.
  - inversion S as [| ? ? S' Hd]; subst. constructor; [now apply IH |].
    destruct lines; cbn [app] in *; inversion Hd; subst; now constructor.
Qed.

Lemma forced_grow (lines : list jsstring) (b : jsstring) (c : JsString.code_unit) :
  Sorted forced (lines ++ [b]) -> Sorted forced (lines ++ [b ++ [c]]).
Proof.
  intros S. induction lines as [| l lines IH]; cbn [app] in *.
  - repeat constructor.
  - inversion S as [| ? ? S' Hd]; subst. constructor; [now apply IH |].
    destruct lines; cbn [app] in *; inversion Hd as [| ? ? R]; subst;
      constructor; trivial.
    destruct b; [destruct R | exact R].
Qed.

Lemma wrapLoop_forced (characters : jsstring) :
  forall (i : nat) (line : jsstring) (currentY : number) (drawn : list Line),
    Sorted forced (map text drawn ++ [line]) ->
    let r := loop characters i x maxWidth lineHeight line currentY drawn in
    Sorted forced (map text (snd r) ++ [fst (fst r)]).
Proof.
  induction characters as [| c rest IH]; intros i line currentY drawn S;
    cbn [wrapLoop]; [exact S |].
  destruct (Double.gt (measure (line ++ [c])) maxWidth && (0 <? i)%nat) eqn:B.
  - apply IH. rewrite map_app. cbn [map text].
    apply forced_snoc; [exact S |].
    apply andb_true_iff in B. destruct B as [B _]. now apply gt_true.
  - apply IH. now apply forced_grow.
Qed.

Lemma placed_snoc (y : number) (lines : list Line) (s : jsstring) :
  placed y lines ->
  placed y (lines ++ [{| text := s; at_x := x;
                         at_y := cursorAfter lineHeight y (length lines) |}]).
Proof.
  intros P k l H.
  destruct (Nat.lt_ge_cases k (length lines)) as [L | L].
  - rewrite nth_error_app1 in H by exact L. now apply P.
  - rewrite nth_error_app2 in H by exact L.
    destruct (k - length lines)%nat as [| j] eqn:E; cbn [nth_error] in H.
    + injection H as <-. cbn [at_x at_y].
      replace k with (length lines) by lia. now split.
    + now destruct j.
Qed.

Lemma wrapLoop_placed (y : number) (characters : jsstring) :
  forall (i : nat) (line : jsstring) (currentY : number) (drawn : list Line),
    currentY = cursorAfter lineHeight y (length drawn) -> placed y drawn ->
    let r := loop characters i x maxWidth lineHeight line currentY drawn in
    snd (fst r) = cursorAfter lineHeight y (length (snd r)) /\
    placed y (snd r).
Proof.
  induction characters as [| c rest IH]; intros i line currentY drawn Hy P;
    cbn [wrapLoop]; [now split |].
  destruct (Double.gt (measure (line ++ [c])) maxWidth && (0 <? i)%nat).
  - apply IH.
    + rewrite length_app, Nat.add_comm. cbn [length Nat.add cursorAfter Nat.iter].
      now rewrite Hy.
    + rewrite Hy. now apply placed_snoc.
  - now apply IH.
Qed.

(** A text whose prefixes all fit stays on the pending line. *)
Lemma wrapLoop_one_line (text : jsstring) (characters : jsstring) :
  (forall n, (0 < n)%nat -> fits measure maxWidth (firstn n text)) ->
  forall (i : nat) (line : jsstring) (currentY : number) (drawn : list Line),
    line ++ characters = text ->
    loop characters i x maxWidth lineHeight line currentY drawn
    = (text, currentY, drawn).
Proof.
  intros F.
  induction characters as [| c rest IH]; intros i line currentY drawn E;
    cbn [wrapLoop].
  - now rewrite app_nil_r in E; subst.
  - assert (Double.gt (measure (line ++ [c])) maxWidth = false) as ->.
    { apply gt_false.
      specialize (F (length (line ++ [c]))).
      rewrite <- E in F.
      replace (line ++ c :: rest) with ((line ++ [c]) ++ rest) in F
        by now rewrite <- app_assoc.
      rewrite firstn_app, firstn_all, Nat.sub_diag, firstn_O, app_nil_r in F.
      apply F. rewrite length_app. cbn [length]. lia. }
    cbn [andb]. apply IH. now rewrite <- app_assoc.
Qed.

End Lines.

(** X19.  Every line [wrapText] draws fits the maximum width, except
    that a line of a single character is drawn however wide it is (the
    empty line of the empty text included). *)
Theorem wrapText_lines_fit (measure : jsstring -> number) (text : jsstring)
  (x y maxWidth lineHeight : number) :
  Forall (fun l => shortOrFits measure maxWidth (Compositor.text l))
    (fst (wrapText measure text x y maxWidth lineHeight)).
Proof.
  unfold wrapText.
  pose proof (wrapLoop_fit measure x maxWidth lineHeight text 0 [] y []) as H.
  destruct (wrapLoop measure text 0 x maxWidth lineHeight [] y [])
    as [[line currentY] drawn].
  cbn [fst snd] in *.
  destruct H as [Hl Hd]; [reflexivity | left; cbn [length]; lia | constructor |].
  apply Forall_app. split; [exact Hd |]. constructor; [exact Hl | constructor].
Qed.

(** X20.  The wrapping is greedy: a line ends only where it had to, that
    is, each line extended by the first character of the next line
    would be wider than the maximum width; and no line after the first
    is empty. *)
Theorem wrapText_breaks_forced (measure : jsstring -> number) (text : jsstring)
  (x y maxWidth lineHeight : number) :
  Sorted (forcedBreak measure maxWidth)
    (map Compositor.text (fst (wrapText measure text x y maxWidth lineHeight))).
Proof.
  unfold wrapText.
  pose proof (wrapLoop_forced measure x maxWidth lineHeight text 0 [] y []) as H.
  destruct (wrapLoop measure text 0 x maxWidth lineHeight [] y [])
    as [[line currentY] drawn].
  cbn [fst snd] in *. rewrite map_app. cbn [map Compositor.text].
  apply H. repeat constructor.
Qed.

(** X21.  The lines are drawn one below the other: each at the given x,
    the k-th line k line heights below the input cursor (added one at a
    time, as JavaScript adds), and the cursor returned lies one line
    height below the last line. *)
Theorem wrapText_positions (measure : jsstring -> number) (text : jsstring)
  (x y maxWidth lineHeight : number) :
  let lines := fst (wrapText measure text x y maxWidth lineHeight) in
  placed x lineHeight y lines /\
  snd (wrapText measure text x y maxWidth lineHeight)
  = cursorAfter lineHeight y (length lines).
Proof.
  unfold wrapText.
  pose proof (wrapLoop_placed measure x maxWidth lineHeight y text 0 [] y [])
    as H.
  destruct (wrapLoop measure text 0 x maxWidth lineHeight [] y [])
    as [[line currentY] drawn].
  cbn [fst snd] in *.
  destruct H as [Hy P]; [reflexivity | intros [| k] l [=] |].
  rewrite Hy. split.
  - now apply placed_snoc.
  - rewrite length_app, Nat.add_comm. reflexivity.
Qed.

(** X22.  A text all of whose non-empty prefixes fit the maximum width
    is drawn on one line, at the input position, and the cursor moves
    down by one line height. *)
Theorem wrapText_one_line (measure : jsstring -> number) (text : jsstring)
  (x y maxWidth lineHeight : number) :
  (forall n, (0 < n)%nat -> fits measure maxWidth (firstn n text)) ->
  wrapText measure text x y maxWidth lineHeight
  = ([{| Compositor.text := text; at_x := x; at_y := y |}],
     Double.add y lineHeight).
Proof.
  intros F. unfold wrapText.
  now rewrite (wrapLoop_one_line measure x maxWidth lineHeight text text F).
Qed.

Lemma wrapText_one_line_witness :
  wrapText Samples.tenPerUnit (js "abc") 0 0 30 18
  = ([{| Compositor.text := js "abc"; at_x := 0; at_y := 0 |}],
     Double.add 0 18).
Proof.
  apply wrapText_one_line.
  intros [| [| [| [| n]]]] _; vm_compute; discriminate.
Defined.

End WrappingFacts.

(* ===================================================================== *)
(** * The document: pages, marks and glyphs *)
(* ===================================================================== *)

Module DocumentFacts.
Import Compositor Notions Checks Samples.
Local Open Scope Q_scope.

(** ** Pages *)

Lemma assemble_sheets (env : Env) (marks : list Mark.t) (pages : list Page.t) :
  forall (i : nat) (pdf : list PdfPage),
    Forall (loads env) pages ->
    (forall k, (k < length pages)%nat -> getContext env (i + k) = true) ->
    exists new,
      assemble env i pages marks pdf = Resolved (pdf ++ new) /\
      length new = length pages /\
      forall k page, nth_error pages k = Some page ->
        exists size,
          loadImage env (Page.imageUrl page) = Some size /\
          nth_error new k
          = Some (sheetOf env page size (pageMarks marks (i + k))).
Proof.
  induction pages as [| page rest IH]; intros i pdf L C.
  - exists []. cbn [assemble]. rewrite app_nil_r.
    repeat split. intros [| k] page [=].
  - inversion L as [| ? ? Lp Lrest]; subst. cbn [assemble].
    unfold loads in Lp.
    destruct (loadImage env (Page.imageUrl page)) as [[w h] |] eqn:Ld;
      [| now elim Lp].
    pose proof (C 0%nat ltac:(cbn [length]; lia)) as C0.
    rewrite Nat.add_0_r in C0. rewrite C0. cbn [negb].
    match goal with
    | |- context [assemble env (S i) rest marks ?p] =>
      destruct (IH (S i) p Lrest) as (new & E & Len & Nth)
    end.
    { intros k Hk. replace (S i + k)%nat with (i + S k)%nat by lia.
      apply C. cbn [length]. lia. }
    rewrite E, <- app_assoc. cbn [app].
    eexists. split; [reflexivity |]. split; [cbn [length]; now rewrite Len |].
    intros [| k] p Hp; cbn [nth_error] in *.
    + injection Hp as <-. exists (w, h). rewrite Nat.add_0_r.
      split; [exact Ld | reflexivity].
    + destruct (Nth k p Hp) as (size & Ls & N). exists size.
      replace (i + S k)%nat with (S i + k)%nat by lia. now split.
Qed.

Lemma gt_inject_Z (a b : Z) : Double.gt (inject_Z a) (inject_Z b) = true <-> (b < a)%Z.
Proof.
  rewrite WrappingFacts.gt_true. now rewrite <- Zlt_Qlt.
Qed.

Lemma sample_pages_fit :
  Forall (withinPageLimit (browser (101, 50)%Z true)) [scan; scan].
Proof.
  assert (fitsPage 101 50) as F
    by (unfold fitsPage, pageLimit; repeat split; vm_compute;
        first [reflexivity | discriminate]).
  constructor; [exact F |]. constructor; [exact F | constructor].
Qed.

(** X23.  When every image loads and every canvas yields a drawing
    context, the document has one page for each input page, in the
    input order, and the k-th page shows the k-th image with the marks
    of page k, laid out in the order of their y coordinates, on a page
    of the size of its canvas.  (The images have a positive size and
    their canvases stay within the largest page the PDF library lays
    out.) *)
Theorem document_pages_in_order (env : Env) (pages : list Page.t)
  (marks : list Mark.t) :
  Forall (loads env) pages ->
  Forall (withinPageLimit env) pages ->
  (forall i, (i < length pages)%nat -> getContext env i = true) ->
  exists pdf,
    generateGradedPDF env pages marks = Resolved pdf /\
    length pdf = length pages /\
    forall k page, nth_error pages k = Some page ->
      exists size,
        loadImage env (Page.imageUrl page) = Some size /\
        nth_error pdf k = Some (sheetOf env page size (pageMarks marks k)).
Proof.
  intros L _ C. unfold generateGradedPDF.
  destruct (assemble_sheets env marks pages 0 [] L C) as (new & E & Len & N).
  exists new. cbn [app] in E. now repeat split.
Qed.

Lemma document_pages_in_order_witness :
  exists pdf,
    generateGradedPDF (browser (101, 50)%Z true) [scan; scan] fourMarks
    = Resolved pdf /\
    length pdf = 2%nat.
Proof.
  destruct (document_pages_in_order (browser (101, 50)%Z true)
              [scan; scan] fourMarks) as (pdf & E & Len & _).
  - repeat constructor; discriminate.
  - exact sample_pages_fit.
  - reflexivity.
  - exists pdf. split; [exact E | exact Len].
Defined.

(** X24.  The orientation of a page of the document follows its shape:
    for an image of w by h pixels the page is w + floor(0.45 w) wide and
    h high, and it is a landscape page exactly when that width exceeds
    the height.  (The images have a positive size and their canvases
    stay within the largest page the PDF library lays out.) *)
Theorem page_orientation (env : Env) (pages : list Page.t)
  (marks : list Mark.t) (k : nat) (page : Page.t) (w h : Z) :
  Forall (loads env) pages ->
  Forall (withinPageLimit env) pages ->
  (forall i, (i < length pages)%nat -> getContext env i = true) ->
  nth_error pages k = Some page ->
  loadImage env (Page.imageUrl page) = Some (w, h) ->
  exists pdf sheet,
    generateGradedPDF env pages marks = Resolved pdf /\
    nth_error pdf k = Some sheet /\
    page_width sheet = inject_Z (w + 9 * w / 20) /\
    page_height sheet = inject_Z h /\
    (orientation sheet = landscape <-> (h < w + 9 * w / 20)%Z).
Proof.
  intros L Fit C Hk Ld. unfold generateGradedPDF.
  assert (0 <= w < 2 ^ 32)%Z as Hw.
  { apply nth_error_In in Hk.
    pose proof (proj1 (Forall_forall _ _) Fit page Hk) as F.
    unfold withinPageLimit in F. rewrite Ld in F.
    exact (CompositorFacts.fitsPage_width w h F). }
  destruct (assemble_sheets env marks pages 0 [] L C) as (new & E & Len & N).
  destruct (N k page Hk) as (size & Ls & Hn). rewrite Ld in Ls.
  injection Ls as <-.
  eexists new, _. split; [exact E |]. split; [exact Hn |].
  unfold sheetOf. cbn [page_width page_height orientation fst snd].
  rewrite (CompositorFacts.totalWidth_floor w Hw).
  split; [reflexivity |]. split; [reflexivity |].
  rewrite <- gt_inject_Z.
  destruct (Double.gt (inject_Z (w + 9 * w / 20)) (inject_Z h));
    split; congruence.
Qed.

Lemma page_orientation_witness :
  exists pdf sheet,
    generateGradedPDF (browser (101, 50)%Z true) [scan; scan] fourMarks
    = Resolved pdf /\
    nth_error pdf 1 = Some sheet /\
    page_width sheet = inject_Z (101 + 9 * 101 / 20) /\
    page_height sheet = inject_Z 50 /\
    (orientation sheet = landscape <-> (50 < 101 + 9 * 101 / 20)%Z).
Proof.
  apply (page_orientation (browser (101, 50)%Z true) [scan; scan]
           fourMarks 1 scan 101 50).
  - repeat constructor; discriminate.
  - exact sample_pages_fit.
  - reflexivity.
  - reflexivity.
  - reflexivity.
Defined.

(** ** Marks *)

Lemma below_next (marks : list Mark.t) (n : nat) :
  Permutation
    (filter (fun m => (Mark.pageIndex m <? S n)%nat) marks)
    (filter (fun m => (Mark.pageIndex m <? n)%nat) marks
     ++ filter (fun m => (Mark.pageIndex m =? n)%nat) marks).
Proof.
  induction marks as [| m marks IH]; cbn [filter]; [constructor |].
  destruct (Nat.ltb_spec (Mark.pageIndex m) (S n)) as [A | A],
           (Nat.ltb_spec (Mark.pageIndex m) n) as [B | B],
           (Nat.eqb_spec (Mark.pageIndex m) n) as [D | D]; try lia; cbn [app].
  - now constructor.
  - rewrite IH. apply Permutation_middle.
  - exact IH.
Qed.

Lemma pageMarks_split (marks : list Mark.t) (n : nat) :
  Permutation
    (concat (map (pageMarks marks) (seq 0 n)))
    (filter (fun m => (Mark.pageIndex m <? n)%nat) marks).
Proof.
  induction n as [| n IH].
  - cbn [seq map concat]. induction marks as [| m marks IHm]; cbn [filter];
      [constructor | exact IHm].
  - rewrite seq_S, map_app, concat_app, IH, below_next. cbn [Nat.add map concat].
    rewrite app_nil_r. apply Permutation_app_head.
    unfold pageMarks. apply (SortFacts.sort_perm Mark.y).
Qed.

(** X25.  The page lists split the marks: the marks laid out on the
    pages 0 to n - 1 are, taken together, exactly the marks whose page
    index is below n, each once; no mark is lost or drawn twice, and a
    mark that points past the last page is drawn nowhere. *)
Theorem marks_split_over_pages (marks : list Mark.t) (n : nat) :
  Permutation
    (concat (map (pageMarks marks) (seq 0 n)))
    (filter (fun m => (Mark.pageIndex m <? n)%nat) marks).
Proof. apply pageMarks_split. Qed.

(** ** Glyphs *)

Lemma glyphs_app (a b : list Command) : glyphs (a ++ b) = glyphs a ++ glyphs b.
Proof. unfold glyphs. apply flat_map_app. Qed.

Lemma glyphs_texts (font : Font) (lines : list Line) :
  glyphs (texts font lines) = [].
Proof. induction lines as [| l lines IH]; [reflexivity | exact IH]. Qed.

Lemma renderMark_glyphs (env : Env) (ow oh : number) (cmds : list Command)
  (cursor : number) (mark : Mark.t) :
  glyphs (fst (renderMark env ow oh (cmds, cursor) mark))
  = glyphs cmds ++ [stamp ow oh mark].
Proof.
  unfold renderMark.
  repeat match goal with
         | |- context [match wrapText ?m ?t ?x ?y ?w ?h with pair _ _ => _ end] =>
           destruct (wrapText m t x y w h)
         | |- context [if ?b then _ else _] => destruct b
         end;
    cbn [fst]; rewrite !glyphs_app, ?glyphs_texts, ?app_nil_r;
    reflexivity.
Qed.

Lemma fold_glyphs (env : Env) (ow oh : number) (marks : list Mark.t) :
  forall (cmds : list Command) (cursor : number),
    glyphs (fst (fold_left (renderMark env ow oh) marks (cmds, cursor)))
    = glyphs cmds ++ map (stamp ow oh) marks.
Proof.
  induction marks as [| m marks IH]; intros cmds cursor; cbn [fold_left map].
  - now rewrite app_nil_r.
  - pose proof (renderMark_glyphs env ow oh cmds cursor m) as G.
    destruct (renderMark env ow oh (cmds, cursor) m) as [cmds' cursor'].
    cbn [fst] in G. now rewrite IH, G, <- app_assoc.
Qed.

(** X26.  On the canvas of a page every mark laid out is stamped exactly
    once, in the order of the layout, with its own status, at
    (x / 100) * width and (y / 100) * height of the image as JavaScript
    computes them; nothing else on the canvas is a glyph. *)
Theorem one_glyph_per_mark (env : Env) (page : Page.t) (ow oh : number)
  (laidOut : list Mark.t) :
  glyphs (commands (renderPage env page ow oh laidOut))
  = map (stamp ow oh) laidOut.
Proof.
  unfold renderPage. cbn [commands]. now rewrite fold_glyphs.
Qed.

Lemma graded_page_index (env : Reconciler.Env) (pages pages' : list Page.t)
  (created : list Mark.t) :
  Reconciler.gradeExamPages env pages = Resolved (created, pages') ->
  length pages' = length pages /\
  filter (fun m => (Mark.pageIndex m <? length pages')%nat) created = created.
Proof.
  intros G. apply GradingFacts.gradeExamPages_resolved in G.
  destruct G as (Hp & _ & Hpl).
  apply Forall2_length in Hp. split; [now symmetry |].
  rewrite <- Hp. apply forallb_filter_id. apply forallb_forall. intros m Hm.
  apply (in_map placement) in Hm. rewrite Hpl in Hm. unfold placement in Hm.
  apply GradingFacts.expected_entry in Hm. destruct Hm as [B _].
  apply Nat.ltb_lt. lia.
Qed.

(** X28.  Grading and reporting fit together: every mark a grading run
    returns belongs to one of the pages it returns, so the report lays
    out each of these marks on exactly one page and leaves none out. *)
Theorem graded_marks_all_reported (env : Reconciler.Env)
  (pages pages' : list Page.t) (created : list Mark.t) :
  Reconciler.gradeExamPages env pages = Resolved (created, pages') ->
  Permutation
    (concat (map (pageMarks created) (seq 0 (length pages')))) created.
Proof.
  intros G. destruct (graded_page_index _ _ _ _ G) as [_ E].
  rewrite <- E at 2. apply pageMarks_split.
Qed.

Lemma graded_marks_all_reported_witness :
  exists created,
    length created = 4%nat /\
    Permutation (concat (map (pageMarks created) (seq 0 2))) created.
Proof.
  eexists. split;
    [| apply (graded_marks_all_reported _ _ _ _ GradingFacts.two_scans)].
  reflexivity.
Defined.

(** ** Sidebar text *)

Lemma wrapText_spells (measure : jsstring -> number) (t : jsstring)
  (x y maxWidth lineHeight : number) :
  concat (map text (fst (wrapText measure t x y maxWidth lineHeight))) = t.
Proof.
  unfold wrapText.
  pose proof (CompositorFacts.wrapLoop_lines measure x maxWidth lineHeight
                t 0 [] y []) as H.
  destruct (wrapLoop measure t 0 x maxWidth lineHeight [] y [])
    as [[line currentY] drawn].
  cbn [fst snd app] in *.
  destruct H as (flushed & -> & _ & _ & _ & E); [lia |].
  rewrite map_app, concat_app. cbn [map concat text].
  now rewrite app_nil_r.
Qed.

Lemma written_app (a b : list Command) : written (a ++ b) = written a ++ written b.
Proof. unfold written. apply flat_map_app. Qed.

Lemma written_texts (font : Font) (lines : list Line) :
  written (texts font lines) = concat (map text lines).
Proof.
  induction lines as [| l lines IH]; [reflexivity |].
  cbn [texts map concat written flat_map] in *. now rewrite <- IH.
Qed.

Lemma renderMark_written (env : Env) (ow oh : number) (cmds : list Command)
  (cursor : number) (mark : Mark.t) :
  written (fst (renderMark env ow oh (cmds, cursor) mark))
  = written cmds ++ sidebarText mark.
Proof.
  unfold renderMark, sidebarText.
  repeat match goal with
         | |- context [match wrapText ?m ?t ?x ?y ?w ?h with pair _ _ => _ end] =>
           let Sp := fresh "Sp" in
           pose proof (wrapText_spells m t x y w h) as Sp;
           destruct (wrapText m t x y w h); cbn [fst] in Sp
         | |- context [if ?b then _ else _] => destruct b
         end;
    cbn [fst]; rewrite !written_app, ?written_texts;
    cbn [written flat_map app];
    repeat match goal with Sp : concat _ = _ |- _ => rewrite Sp; clear Sp end;
    rewrite ?app_nil_r, <- ?app_assoc; reflexivity.
Qed.

Lemma fold_written (env : Env) (ow oh : number) (marks : list Mark.t) :
  forall (cmds : list Command) (cursor : number),
    written (fst (fold_left (renderMark env ow oh) marks (cmds, cursor)))
    = written cmds ++ flat_map sidebarText marks.
Proof.
  induction marks as [| m marks IH]; intros cmds cursor;
    cbn [fold_left flat_map].
  - now rewrite app_nil_r.
  - pose proof (renderMark_written env ow oh cmds cursor m) as G.
    destruct (renderMark env ow oh (cmds, cursor) m) as [cmds' cursor'].
    cbn [fst] in G. now rewrite IH, G, <- app_assoc.
Qed.

(** X27.  The sidebar loses no text to wrapping: the text written on the
    canvas of a page is the report header followed, for each mark laid
    out, by its question (or Question), its answer after Ans: , its
    correct answer after Correct: when the mark is incorrect and has
    one, and its explanation after Note: when it has one. *)
Theorem sidebar_spells_marks (env : Env) (page : Page.t) (ow oh : number)
  (laidOut : list Mark.t) :
  written (commands (renderPage env page ow oh laidOut))
  = js "Grading Report / 评分报告" ++ flat_map sidebarText laidOut.
Proof.
  unfold renderPage. cbn [commands]. rewrite fold_written.
  cbn [written flat_map text]. now rewrite app_nil_r.
Qed.

End DocumentFacts.
